(** * The streaming command executor of codegen-cloner

  A shallow embedding of [src/utils/streaming-exec.ts]: the
  [StreamingExecutor] class (ring buffer of output lines, live display,
  spinner coupling) and the callbacks that [execute] registers on the child
  process, its two streams and its two timers.

  The event loop is modelled by a list of events, each of which runs the
  callback the source registered for it.  Everything a callback does to the
  outside world (terminal writes, timers, [kill], [resolve], [reject]) is
  appended to an ordered effect log, so that statements about "how often"
  and "in which order" are statements about that log.

  Numbers are integers ([Z]); a timer is a pending callback that an event
  may run, with its delay recorded in the log and wall-clock time left
  out; [Date.now()] is supplied by the data event that reads it. *)

From Stdlib Require Import List String Ascii ZArith Bool Lia Arith.
From Stdlib Require Import DecimalString Permutation.
Import ListNotations.
Open Scope string_scope.
Open Scope list_scope.
Open Scope Z_scope.

(** String concatenation, as in a template literal. *)
Infix "+++" := String.append (right associativity, at level 60).

Set Implicit Arguments.

(* ===================================================================== *)
(** ** JavaScript strings

    A JavaScript string is represented by the bytes of its UTF-8 encoding.
    [split], [join] and template literals act on code points and are
    byte-exact in that representation. *)
(* ===================================================================== *)

Module Js.

Definition chr (n : nat) : ascii := ascii_of_nat n.
Definition str (bytes : list nat) : string :=
  string_of_list_ascii (map chr bytes).

(** ['\n'] and ['\u001B']. *)
Definition nl : string := str [10%nat].
Definition esc : string := str [27%nat].

(** [`${n}`] for an integer-valued number. *)
Definition num (z : Z) : string := NilZero.string_of_int (Z.to_int z).

(** [Array.prototype.join]. *)
Fixpoint join (sep : string) (l : list string) : string :=
  match l with
  | [] => EmptyString
  | [x] => x
  | x :: rest => x +++ sep +++ join sep rest
  end.

(** [String.prototype.split] with a one-character separator: the pieces
    between consecutive separators, the empty ones included. *)
Fixpoint split_chars (sep : ascii) (cur : list ascii) (s : list ascii)
  : list (list ascii) :=
  match s with
  | [] => [rev cur]
  | c :: rest =>
      if Ascii.eqb c sep then rev cur :: split_chars sep [] rest
      else split_chars sep (c :: cur) rest
  end.

Definition split (sep : ascii) (s : string) : list string :=
  map string_of_list_ascii (split_chars sep [] (list_ascii_of_string s)).

(** The code points ECMAScript calls WhiteSpace or LineTerminator, each as
    its UTF-8 byte sequence: TAB, LF, VT, FF, CR, SP, U+00A0, U+1680,
    U+2000..U+200A, U+2028, U+2029, U+202F, U+205F, U+3000, U+FEFF. *)
Definition whitespace : list (list nat) :=
  [ [9]; [10]; [11]; [12]; [13]; [32]; [194; 160]; [225; 154; 128];
    [226; 128; 128]; [226; 128; 129]; [226; 128; 130]; [226; 128; 131];
    [226; 128; 132]; [226; 128; 133]; [226; 128; 134]; [226; 128; 135];
    [226; 128; 136]; [226; 128; 137]; [226; 128; 138];
    [226; 128; 168]; [226; 128; 169]; [226; 128; 175]; [226; 129; 159];
    [227; 128; 128]; [239; 187; 191] ]%nat.

Fixpoint drop_prefix (p s : list ascii) : option (list ascii) :=
  match p, s with
  | [], _ => Some s
  | _ :: _, [] => None
  | a :: p', b :: s' => if Ascii.eqb a b then drop_prefix p' s' else None
  end.

Fixpoint drop_one (pats : list (list ascii)) (s : list ascii)
  : option (list ascii) :=
  match pats with
  | [] => None
  | p :: more =>
      match drop_prefix p s with
      | Some r => Some r
      | None => drop_one more s
      end
  end.

Fixpoint drop_all (fuel : nat) (pats : list (list ascii)) (s : list ascii)
  : list ascii :=
  match fuel with
  | O => s
  | S k =>
      match drop_one pats s with
      | Some r => drop_all k pats r
      | None => s
      end
  end.

Definition trim_chars (s : list ascii) : list ascii :=
  let fwd := map (map chr) whitespace in
  let bwd := map (fun p => rev (map chr p)) whitespace in
  let s1 := drop_all (List.length s) fwd s in
  rev (drop_all (List.length s1) bwd (rev s1)).

(** [String.prototype.trim]. *)
Definition trim (s : string) : string :=
  string_of_list_ascii (trim_chars (list_ascii_of_string s)).

(** Truthiness of a string: non-empty. *)
Definition truthy (s : string) : bool :=
  match s with EmptyString => false | String _ _ => true end.

End Js.

(* ===================================================================== *)
(** ** Data model *)
(* ===================================================================== *)

(** [interface StreamingExecOptions]; every field is optional. *)
Record StreamingExecOptions := {
  opt_cwd : option string;
  opt_maxLines : option Z;
  opt_showOutput : option bool
}.

(** The [ora] spinner handle stored in [currentSpinner]. *)
Inductive Spinner := Ora (text : string).

(** The fields of [class StreamingExecutor]. *)
Record StreamingExecutor := {
  outputBuffer : list string;
  maxLines : Z;
  currentSpinner : option Spinner
}.

(** A JavaScript [Error] value, identified by its message. *)
Inductive JsError := Error (message : string).

Inductive Color := Blue | Gray.
Inductive Timer := OverallTimeout | GraceTimer.

(** What a callback does to the outside world, in program order. *)
Inductive Effect :=
| Spawn (command : string) (args : list string) (cwd : option string)
| SetTimeout (t : Timer) (ms : Z)
| ClearTimeout (t : Timer)
| StdoutWrite (s : string)              (* process.stdout.write *)
| ConsoleLog (c : Color) (s : string)   (* console.log(chalk.<c>(s)) *)
| SpinnerStop                           (* currentSpinner.stop() *)
| Kill                                  (* child.kill() *)
| Resolve                               (* resolve() *)
| Reject (e : JsError).                 (* reject(e) *)

(** What [spawn] returned: whether [child.stdout] and [child.stderr] exist. *)
Record Child := {
  has_stdout : bool;
  has_stderr : bool
}.

(** The state of one [execute] call: the executor object, the arguments
    captured by the closures, the [let] variables of the promise body, the
    timers that are pending, and the effect log. *)
Record Execution := {
  this : StreamingExecutor;
  command : string;
  args : list string;
  showOutput : bool;
  child : Child;
  hasOutput : bool;
  resolved : bool;
  lastDisplayUpdate : Z;
  stdoutEnded : bool;
  stderrEnded : bool;
  processExited : bool;
  exitCode : option Z;
  overallPending : bool;
  gracePending : nat;
  effects : list Effect
}.

(** The events the runtime can deliver to the callbacks of one execution.
    A data event carries the decoded chunk ([data.toString()]) and the value
    [Date.now()] returns while its callback runs. *)
Inductive Event :=
| StdoutData (data : string) (now : Z)
| StderrData (data : string) (now : Z)
| StdoutEnd
| StderrEnd
| Exit (code : option Z)
| GraceTimerFires
| OverallTimeoutFires
| SpawnError (e : JsError).

(* ===================================================================== *)
(** ** Field updates *)
(* ===================================================================== *)

Definition with_outputBuffer (b : list string) (ex : StreamingExecutor)
  : StreamingExecutor :=
  {| outputBuffer := b;
     maxLines := maxLines ex;
     currentSpinner := currentSpinner ex |}.

Definition with_currentSpinner (s : option Spinner) (ex : StreamingExecutor)
  : StreamingExecutor :=
  {| outputBuffer := outputBuffer ex;
     maxLines := maxLines ex;
     currentSpinner := s |}.

Definition with_this (t : StreamingExecutor) (x : Execution) : Execution :=
  {| this := t; command := command x; args := args x;
     showOutput := showOutput x; child := child x;
     hasOutput := hasOutput x; resolved := resolved x;
     lastDisplayUpdate := lastDisplayUpdate x;
     stdoutEnded := stdoutEnded x; stderrEnded := stderrEnded x;
     processExited := processExited x; exitCode := exitCode x;
     overallPending := overallPending x; gracePending := gracePending x;
     effects := effects x |}.

Definition with_hasOutput (b : bool) (x : Execution) : Execution :=
  {| this := this x; command := command x; args := args x;
     showOutput := showOutput x; child := child x;
     hasOutput := b; resolved := resolved x;
     lastDisplayUpdate := lastDisplayUpdate x;
     stdoutEnded := stdoutEnded x; stderrEnded := stderrEnded x;
     processExited := processExited x; exitCode := exitCode x;
     overallPending := overallPending x; gracePending := gracePending x;
     effects := effects x |}.

Definition with_resolved (b : bool) (x : Execution) : Execution :=
  {| this := this x; command := command x; args := args x;
     showOutput := showOutput x; child := child x;
     hasOutput := hasOutput x; resolved := b;
     lastDisplayUpdate := lastDisplayUpdate x;
     stdoutEnded := stdoutEnded x; stderrEnded := stderrEnded x;
     processExited := processExited x; exitCode := exitCode x;
     overallPending := overallPending x; gracePending := gracePending x;
     effects := effects x |}.

Definition with_lastDisplayUpdate (t : Z) (x : Execution) : Execution :=
  {| this := this x; command := command x; args := args x;
     showOutput := showOutput x; child := child x;
     hasOutput := hasOutput x; resolved := resolved x;
     lastDisplayUpdate := t;
     stdoutEnded := stdoutEnded x; stderrEnded := stderrEnded x;
     processExited := processExited x; exitCode := exitCode x;
     overallPending := overallPending x; gracePending := gracePending x;
     effects := effects x |}.

Definition with_stdoutEnded (b : bool) (x : Execution) : Execution :=
  {| this := this x; command := command x; args := args x;
     showOutput := showOutput x; child := child x;
     hasOutput := hasOutput x; resolved := resolved x;
     lastDisplayUpdate := lastDisplayUpdate x;
     stdoutEnded := b; stderrEnded := stderrEnded x;
     processExited := processExited x; exitCode := exitCode x;
     overallPending := overallPending x; gracePending := gracePending x;
     effects := effects x |}.

Definition with_stderrEnded (b : bool) (x : Execution) : Execution :=
  {| this := this x; command := command x; args := args x;
     showOutput := showOutput x; child := child x;
     hasOutput := hasOutput x; resolved := resolved x;
     lastDisplayUpdate := lastDisplayUpdate x;
     stdoutEnded := stdoutEnded x; stderrEnded := b;
     processExited := processExited x; exitCode := exitCode x;
     overallPending := overallPending x; gracePending := gracePending x;
     effects := effects x |}.

Definition with_exit (code : option Z) (x : Execution) : Execution :=
  {| this := this x; command := command x; args := args x;
     showOutput := showOutput x; child := child x;
     hasOutput := hasOutput x; resolved := resolved x;
     lastDisplayUpdate := lastDisplayUpdate x;
     stdoutEnded := stdoutEnded x; stderrEnded := stderrEnded x;
     processExited := true; exitCode := code;
     overallPending := overallPending x; gracePending := gracePending x;
     effects := effects x |}.

Definition with_overallPending (b : bool) (x : Execution) : Execution :=
  {| this := this x; command := command x; args := args x;
     showOutput := showOutput x; child := child x;
     hasOutput := hasOutput x; resolved := resolved x;
     lastDisplayUpdate := lastDisplayUpdate x;
     stdoutEnded := stdoutEnded x; stderrEnded := stderrEnded x;
     processExited := processExited x; exitCode := exitCode x;
     overallPending := b; gracePending := gracePending x;
     effects := effects x |}.

Definition with_gracePending (n : nat) (x : Execution) : Execution :=
  {| this := this x; command := command x; args := args x;
     showOutput := showOutput x; child := child x;
     hasOutput := hasOutput x; resolved := resolved x;
     lastDisplayUpdate := lastDisplayUpdate x;
     stdoutEnded := stdoutEnded x; stderrEnded := stderrEnded x;
     processExited := processExited x; exitCode := exitCode x;
     overallPending := overallPending x; gracePending := n;
     effects := effects x |}.

(** Append one effect to the log. *)
Definition emit (e : Effect) (x : Execution) : Execution :=
  {| this := this x; command := command x; args := args x;
     showOutput := showOutput x; child := child x;
     hasOutput := hasOutput x; resolved := resolved x;
     lastDisplayUpdate := lastDisplayUpdate x;
     stdoutEnded := stdoutEnded x; stderrEnded := stderrEnded x;
     processExited := processExited x; exitCode := exitCode x;
     overallPending := overallPending x; gracePending := gracePending x;
     effects := effects x ++ [e] |}.

Definition is_some {A} (o : option A) : bool :=
  match o with Some _ => true | None => false end.

(* ===================================================================== *)
(** ** The methods of [StreamingExecutor] *)
(* ===================================================================== *)

Definition DISPLAY_THROTTLE_MS : Z := 100.
Definition OVERALL_TIMEOUT_MS : Z := 30000.
Definition GRACE_MS : Z := 100.

(** [constructor(maxLines: number = 10)]. *)
Definition new_StreamingExecutor (maxLines : option Z) : StreamingExecutor :=
  {| outputBuffer := [];
     maxLines := match maxLines with Some m => m | None => 10 end;
     currentSpinner := None |}.

(** [addToBuffer]: [push], then [shift] when the length exceeds [maxLines]. *)
Definition addToBuffer (line : string) (ex : StreamingExecutor)
  : StreamingExecutor :=
  let pushed := outputBuffer ex ++ [line] in
  if Z.of_nat (List.length pushed) >? maxLines ex
  then with_outputBuffer (tl pushed) ex
  else with_outputBuffer pushed ex.

(** The two writes that move the cursor up over the drawn region and erase
    it: [\u001B[<n+1>A] and [\u001B[0J]. *)
Definition erase_region (n : nat) (x : Execution) : Execution :=
  emit (StdoutWrite (Js.esc +++ "[0J"))
    (emit (StdoutWrite (Js.esc +++ "[" +++ Js.num (Z.of_nat n + 1) +++ "A")) x).

(** [updateDisplay(command)]. *)
Definition updateDisplay (cmd : string) (x : Execution) : Execution :=
  let hadSpinner := is_some (currentSpinner (this x)) in
  let x1 := if is_some (currentSpinner (this x)) then emit SpinnerStop x else x in
  let n := List.length (outputBuffer (this x1)) in
  let x2 := if negb hadSpinner && (0 <? n)%nat then erase_region n x1 else x1 in
  let x3 := emit (ConsoleLog Blue ("▶ " +++ cmd)) x2 in
  fold_left (fun acc line => emit (ConsoleLog Gray ("  " +++ line)) acc)
            (outputBuffer (this x3)) x3.

(** [clearDisplay()]. *)
Definition clearDisplay (x : Execution) : Execution :=
  let n := List.length (outputBuffer (this x)) in
  let x1 := if (0 <? n)%nat then erase_region n x else x in
  with_this (with_outputBuffer [] (this x1)) x1.

(** [`${command} ${args.join(' ')}`]. *)
Definition command_line (command : string) (args : list string) : string :=
  command +++ " " +++ Js.join " " args.

(** The synchronous part of [execute(command, args, options)]: the options
    are destructured ([cwd], and [showOutput] with default [true]), the
    buffer is reset, the child is spawned, the closure variables are
    initialised and the overall timeout is armed.  [ch] is what [spawn]
    returned. *)
Definition execute (ex : StreamingExecutor) (command : string)
    (args : list string) (options : StreamingExecOptions) (ch : Child)
  : Execution :=
  let cwd := opt_cwd options in
  let showOutput :=
    match opt_showOutput options with Some b => b | None => true end in
  {| this := with_outputBuffer [] ex;
     command := command;
     args := args;
     showOutput := showOutput;
     child := ch;
     hasOutput := false;
     resolved := false;
     lastDisplayUpdate := 0;
     stdoutEnded := negb (has_stdout ch);
     stderrEnded := negb (has_stderr ch);
     processExited := false;
     exitCode := None;
     overallPending := true;
     gracePending := 0;
     effects := [Spawn command args cwd;
                 SetTimeout OverallTimeout OVERALL_TIMEOUT_MS] |}.

(** [processOutput(data, isError)], with [now] the value of [Date.now()]. *)
Definition processOutput (data : string) (isError : bool) (now : Z)
    (x : Execution) : Execution :=
  let lines :=
    filter (fun line => Js.truthy (Js.trim line)) (Js.split (Js.chr 10) data) in
  let x1 :=
    fold_left
      (fun acc line =>
         with_hasOutput true
           (with_this (addToBuffer (Js.trim line) (this acc)) acc))
      lines x in
  if showOutput x1 && hasOutput x1 && negb (is_some (currentSpinner (this x1)))
  then
    if now - lastDisplayUpdate x1 >=? DISPLAY_THROTTLE_MS
    then with_lastDisplayUpdate now
           (updateDisplay (command_line (command x1) (args x1)) x1)
    else x1
  else x1.

(** [`Command failed with exit code ${exitCode}${errorOutput}`], where
    [errorOutput] is a newline followed by the buffer joined with newlines
    when the buffer is not empty, and empty otherwise. *)
Definition failureMessage (code : Z) (buffer : list string) : string :=
  let errorOutput :=
    if (0 <? List.length buffer)%nat
    then Js.nl +++ Js.join Js.nl buffer
    else EmptyString in
  "Command failed with exit code " +++ Js.num code +++ errorOutput.

(** [`Command timed out after 30 seconds: ${command} ${args.join(' ')}`]. *)
Definition timeoutMessage (command : string) (args : list string) : string :=
  "Command timed out after 30 seconds: " +++ command_line command args.

(** [clearTimeout(overallTimeout)]. *)
Definition clearOverallTimeout (x : Execution) : Execution :=
  with_overallPending false (emit (ClearTimeout OverallTimeout) x).

(** [checkCompletion()]. *)
Definition checkCompletion (x : Execution) : Execution :=
  if processExited x && stdoutEnded x && stderrEnded x && negb (resolved x)
  then
    let x1 := with_resolved true x in
    let x2 := clearOverallTimeout x1 in
    let x3 := if negb (showOutput x2) then clearDisplay x2 else x2 in
    match exitCode x3 with
    | None | Some 0 => emit Resolve x3
    | Some code =>
        emit (Reject (Error (failureMessage code (outputBuffer (this x3))))) x3
    end
  else x.

(** The callback of the overall timeout. *)
Definition onOverallTimeout (x : Execution) : Execution :=
  if negb (resolved x)
  then
    let x1 := with_resolved true x in
    let x2 := emit Kill x1 in
    let x3 := if showOutput x2 then clearDisplay x2 else x2 in
    emit (Reject (Error (timeoutMessage (command x3) (args x3)))) x3
  else x.

(** [child.stdout.on('end', ...)] and [child.stderr.on('end', ...)]. *)
Definition onStdoutEnd (x : Execution) : Execution :=
  checkCompletion (with_stdoutEnded true x).

Definition onStderrEnd (x : Execution) : Execution :=
  checkCompletion (with_stderrEnded true x).

(** The callback of the grace timer set by the exit handler. *)
Definition onGraceTimer (x : Execution) : Execution :=
  if negb (resolved x)
  then checkCompletion (with_stderrEnded true (with_stdoutEnded true x))
  else x.

(** [child.on('exit', (code) => ...)]. *)
Definition onExit (code : option Z) (x : Execution) : Execution :=
  let x1 := with_exit code x in
  let x2 := with_gracePending (S (gracePending x1))
              (emit (SetTimeout GraceTimer GRACE_MS) x1) in
  checkCompletion x2.

(** [child.on('error', (error) => ...)]. *)
Definition onError (error : JsError) (x : Execution) : Execution :=
  if resolved x then x
  else
    let x1 := with_resolved true x in
    let x2 := clearOverallTimeout x1 in
    let x3 := if showOutput x2 then clearDisplay x2 else x2 in
    emit (Reject error) x3.

(* ===================================================================== *)
(** ** The event loop *)
(* ===================================================================== *)

(** One turn of the event loop.  Stream events reach a callback only when
    the stream exists (the handlers are registered under [if (child.stdout)]
    and [if (child.stderr)]); a timer callback runs only while the timer is
    pending, and consumes it. *)
Definition dispatch (x : Execution) (ev : Event) : Execution :=
  match ev with
  | StdoutData data now =>
      if has_stdout (child x) then processOutput data false now x else x
  | StderrData data now =>
      if has_stderr (child x) then processOutput data true now x else x
  | StdoutEnd => if has_stdout (child x) then onStdoutEnd x else x
  | StderrEnd => if has_stderr (child x) then onStderrEnd x else x
  | Exit code => onExit code x
  | GraceTimerFires =>
      match gracePending x with
      | O => x
      | S k => onGraceTimer (with_gracePending k x)
      end
  | OverallTimeoutFires =>
      if overallPending x
      then onOverallTimeout (with_overallPending false x)
      else x
  | SpawnError e => onError e x
  end.

Definition run (x : Execution) (evs : list Event) : Execution :=
  fold_left dispatch evs x.

(** The calls to [resolve] and [reject] in an effect log. *)
Definition is_settle (e : Effect) : bool :=
  match e with
  | Resolve | Reject _ => true
  | _ => false
  end.

Definition settlements (x : Execution) : list Effect :=
  filter is_settle (effects x).

(** [executeWithSpinner(command, args, spinnerText, options)] up to the
    point where it awaits [execute]: the spinner is stored in
    [currentSpinner] and [execute] is called with [showOutput: true].  What
    follows the [await] is [afterAwait] below, and the events of such a call
    are run by [runWithSpinner]. *)
Definition executeWithSpinner (ex : StreamingExecutor) (command : string)
    (args : list string) (spinnerText : string)
    (options : StreamingExecOptions) (ch : Child) : Execution :=
  execute (with_currentSpinner (Some (Ora spinnerText)) ex) command args
    {| opt_cwd := opt_cwd options;
       opt_maxLines := opt_maxLines options;
       opt_showOutput := Some true |} ch.

(** [executeWithStreaming]: a fresh executor per call. *)
Definition executeWithStreaming (command : string) (args : list string)
    (spinnerText : string) (options : StreamingExecOptions) (ch : Child)
  : Execution :=
  executeWithSpinner (new_StreamingExecutor None) command args spinnerText
    options ch.

(** The calls [executeWithSpinner] makes on its [ora] spinner. *)
Inductive SpinnerCall :=
| SpinnerStart (text : string)      (* ora(spinnerText).start() *)
| SpinnerSucceed (text : string)    (* spinner.succeed(spinnerText) *)
| SpinnerFail (text : string).      (* spinner.fail(`${spinnerText} - Failed`) *)

(** How an [async] function ends: it returns, or it throws. *)
Inductive Completion :=
| Returned
| Threw (e : JsError).

(** The state of one [executeWithSpinner] call: the [execute] call it
    awaits (which holds the executor), the spinner text, the calls made on
    the spinner, and how the call ended, once it has. *)
Record SpinnerRun := {
  awaited : Execution;
  spinnerText : string;
  spinnerCalls : list SpinnerCall;
  completion : option Completion
}.

(** [executeWithSpinner] at its [await]. *)
Definition startWithSpinner (ex : StreamingExecutor) (command : string)
    (args : list string) (spinnerText : string)
    (options : StreamingExecOptions) (ch : Child) : SpinnerRun :=
  {| awaited := executeWithSpinner ex command args spinnerText options ch;
     spinnerText := spinnerText;
     spinnerCalls := [SpinnerStart spinnerText];
     completion := None |}.

(** [finally { this.currentSpinner = null; }]. *)
Definition resetSpinner (x : Execution) : Execution :=
  with_this (with_currentSpinner None (this x)) x.

(** The continuation of the [await]: it runs once, as soon as the promise
    of [execute] has settled.  On success the spinner succeeds; on a
    rejection it fails and the error is thrown again; either way
    [currentSpinner] is reset to [null]. *)
Definition afterAwait (r : SpinnerRun) : SpinnerRun :=
  match completion r, settlements (awaited r) with
  | None, Resolve :: _ =>
      {| awaited := resetSpinner (awaited r);
         spinnerText := spinnerText r;
         spinnerCalls := spinnerCalls r ++ [SpinnerSucceed (spinnerText r)];
         completion := Some Returned |}
  | None, Reject error :: _ =>
      {| awaited := resetSpinner (awaited r);
         spinnerText := spinnerText r;
         spinnerCalls :=
           spinnerCalls r ++ [SpinnerFail (spinnerText r +++ " - Failed")];
         completion := Some (Threw error) |}
  | _, _ => r
  end.

(** One turn of the event loop during an [executeWithSpinner] call: the
    callback of the event, then the continuation of the [await] if the
    callback has settled the promise. *)
Definition dispatchWithSpinner (r : SpinnerRun) (ev : Event) : SpinnerRun :=
  afterAwait
    {| awaited := dispatch (awaited r) ev;
       spinnerText := spinnerText r;
       spinnerCalls := spinnerCalls r;
       completion := completion r |}.

Definition runWithSpinner (r : SpinnerRun) (evs : list Event) : SpinnerRun :=
  fold_left dispatchWithSpinner evs r.

(* ===================================================================== *)
(** ** Running the model on concrete inputs *)
(* ===================================================================== *)

Definition no_options : StreamingExecOptions :=
  {| opt_cwd := None; opt_maxLines := None; opt_showOutput := None |}.

Definition quiet : StreamingExecOptions :=
  {| opt_cwd := None; opt_maxLines := None; opt_showOutput := Some false |}.

Definition piped : Child := {| has_stdout := true; has_stderr := true |}.

Definition line (s : string) : string := s +++ Js.nl.

(* ===================================================================== *)
(** ** Definitions used in the statements *)
(* ===================================================================== *)

(** Adding a sequence of lines, oldest first. *)
Definition addLines (lines : list string) (ex : StreamingExecutor)
  : StreamingExecutor :=
  fold_left (fun acc l => addToBuffer l acc) lines ex.

(** The last [n] elements of a list. *)
Definition lastn {A} (n : nat) (l : list A) : list A :=
  skipn (List.length l - n) l.

(** Effects that only touch the terminal. *)
Definition is_draw (e : Effect) : bool :=
  match e with
  | StdoutWrite _ | ConsoleLog _ _ | SpinnerStop => true
  | _ => false
  end.

(** Effects that [updateDisplay] alone produces. *)
Definition is_redraw (e : Effect) : bool :=
  match e with
  | ConsoleLog _ _ | SpinnerStop => true
  | _ => false
  end.

(** [y] agrees with [x] on everything the completion logic reads. *)
Record same_control (x y : Execution) : Prop := {
  sc_command : command y = command x;
  sc_args : args y = args x;
  sc_showOutput : showOutput y = showOutput x;
  sc_child : child y = child x;
  sc_resolved : resolved y = resolved x;
  sc_stdoutEnded : stdoutEnded y = stdoutEnded x;
  sc_stderrEnded : stderrEnded y = stderrEnded x;
  sc_processExited : processExited y = processExited x;
  sc_exitCode : exitCode y = exitCode x;
  sc_overallPending : overallPending y = overallPending x;
  sc_gracePending : gracePending y = gracePending x;
  sc_maxLines : maxLines (this y) = maxLines (this x);
  sc_currentSpinner : currentSpinner (this y) = currentSpinner (this x)
}.

(** What [updateDisplay] appends to the log. *)
Definition updateDisplay_effects (cmd : string) (x : Execution)
  : list Effect :=
  let n := List.length (outputBuffer (this x)) in
  (if is_some (currentSpinner (this x)) then [SpinnerStop] else [])
  ++ (if negb (is_some (currentSpinner (this x))) && (0 <? n)%nat
      then [StdoutWrite (Js.esc +++ "[" +++ Js.num (Z.of_nat n + 1) +++ "A");
            StdoutWrite (Js.esc +++ "[0J")]
      else [])
  ++ [ConsoleLog Blue ("▶ " +++ cmd)]
  ++ map (fun l => ConsoleLog Gray ("  " +++ l)) (outputBuffer (this x)).

(** The lines [processOutput] buffers from one chunk. *)
Definition chunk_lines (data : string) : list string :=
  map Js.trim
    (filter (fun l => Js.truthy (Js.trim l)) (Js.split (Js.chr 10) data)).

(** The bookkeeping the callbacks maintain between themselves. *)
Record consistent (x : Execution) : Prop := {
  c_unresolved :
    resolved x = false -> settlements x = [] /\ overallPending x = true;
  c_resolved :
    resolved x = true ->
    (exists e, settlements x = [e]) /\ overallPending x = false;
  c_complete :
    processExited x = true -> stdoutEnded x = true ->
    stderrEnded x = true -> resolved x = true;
  c_grace : (0 < gracePending x)%nat -> processExited x = true;
  c_no_stdout : has_stdout (child x) = false -> stdoutEnded x = true;
  c_no_stderr : has_stderr (child x) = false -> stderrEnded x = true
}.

(** No callback changes what the closures captured or the executor's
    configuration. *)
Record same_static (x y : Execution) : Prop := {
  st_command : command y = command x;
  st_args : args y = args x;
  st_showOutput : showOutput y = showOutput x;
  st_child : child y = child x;
  st_maxLines : maxLines (this y) = maxLines (this x);
  st_currentSpinner : currentSpinner (this y) = currentSpinner (this x)
}.

(** A stream counts as ended in a trace when it never existed or its end
    event is in the trace. *)
Definition stdout_done (ch : Child) (evs : list Event) : Prop :=
  has_stdout ch = false \/ In StdoutEnd evs.

Definition stderr_done (ch : Child) (evs : list Event) : Prop :=
  has_stderr ch = false \/ In StderrEnd evs.

(** Event [e], delivered after the trace [pre], is the one whose callback
    settles the promise. *)
Definition ends_execution (x0 : Execution) (pre : list Event) (e : Event)
  : Prop :=
  settlements (run x0 pre) = [] /\ settlements (run x0 (pre ++ [e])) <> [].

(** The trace contains a grace-timer event after a process-exit event. *)
Definition grace_after_exit (evs : list Event) : Prop :=
  exists evs1 c evs2,
    evs = evs1 ++ Exit c :: evs2 /\ In GraceTimerFires evs2.

(** The claim as the specification words it: an execution that is not
    ended by the timeout or by a spawn error has seen the exit event and
    the end event of every stream that exists. *)
Definition waits_for_all_three_events : Prop :=
  forall ex cmd a o ch pre e,
    ends_execution (execute ex cmd a o ch) pre e ->
    e <> OverallTimeoutFires ->
    (forall err, e <> SpawnError err) ->
    (exists c, In (Exit c) (pre ++ [e]))
    /\ stdout_done ch (pre ++ [e])
    /\ stderr_done ch (pre ++ [e]).

(** Every flag that is set is accounted for by the trace so far. *)
Record justified (ch : Child) (evs : list Event) (x : Execution) : Prop := {
  j_exit : processExited x = true -> exists c, In (Exit c) evs;
  j_stdout :
    stdoutEnded x = true -> stdout_done ch evs \/ grace_after_exit evs;
  j_stderr :
    stderrEnded x = true -> stderr_done ch evs \/ grace_after_exit evs
}.

(** What [clearDisplay] writes. *)
Definition clearDisplay_effects (x : Execution) : list Effect :=
  let n := List.length (outputBuffer (this x)) in
  if (0 <? n)%nat
  then [StdoutWrite (Js.esc +++ "[" +++ Js.num (Z.of_nat n + 1) +++ "A");
        StdoutWrite (Js.esc +++ "[0J")]
  else [].

(** The settling call [checkCompletion] makes for an exit code, given the
    buffer it reads when it builds the message. *)
Definition outcome (code : option Z) (buffer : list string) : Effect :=
  match code with
  | None | Some 0 => Resolve
  | Some c => Reject (Error (failureMessage c buffer))
  end.

(** The effects of the exit handler that precede its completion check. *)
Definition before_check (e : Event) : list Effect :=
  match e with
  | Exit _ => [SetTimeout GraceTimer GRACE_MS]
  | _ => []
  end.

(** The claim as the specification words it: a successful completion with
    [showOutput] true and no spinner has called [clearDisplay], so the
    buffer is empty when [resolve] is called. *)
Definition success_clears_display : Prop :=
  forall ex cmd a o ch pre e,
    showOutput (execute ex cmd a o ch) = true ->
    currentSpinner ex = None ->
    ends_execution (execute ex cmd a o ch) pre e ->
    settlements (run (execute ex cmd a o ch) (pre ++ [e])) = [Resolve] ->
    outputBuffer (this (run (execute ex cmd a o ch) (pre ++ [e]))) = [].

Definition with_exitCode (c : option Z) (x : Execution) : Execution :=
  {| this := this x; command := command x; args := args x;
     showOutput := showOutput x; child := child x;
     hasOutput := hasOutput x; resolved := resolved x;
     lastDisplayUpdate := lastDisplayUpdate x;
     stdoutEnded := stdoutEnded x; stderrEnded := stderrEnded x;
     processExited := processExited x; exitCode := c;
     overallPending := overallPending x; gracePending := gracePending x;
     effects := effects x |}.

(** Replace a null exit code by 0 in an event. *)
Definition null_as_zero (e : Event) : Event :=
  match e with
  | Exit None => Exit (Some 0)
  | _ => e
  end.

Definition zero_as_null (c : option Z) : option Z :=
  match c with
  | Some 0 => None
  | _ => c
  end.

(** A state with a stored exit code 0 replaced by null. *)
Definition forget_zero (x : Execution) : Execution :=
  with_exitCode (zero_as_null (exitCode x)) x.

(** The claim as the specification words it: an execution whose exit
    events all carry a null code resolves successfully whenever it
    settles. *)
Definition null_exit_always_resolves : Prop :=
  forall ex cmd a o ch evs,
    In (Exit None) evs ->
    (forall c, In (Exit c) evs -> c = None) ->
    settlements (run (execute ex cmd a o ch) evs) <> [] ->
    settlements (run (execute ex cmd a o ch) evs) = [Resolve].

(** [y] agrees with [x] on the exit bookkeeping and the stream flags. *)
Record same_flags (x y : Execution) : Prop := {
  sf_processExited : processExited y = processExited x;
  sf_exitCode : exitCode y = exitCode x;
  sf_stdoutEnded : stdoutEnded y = stdoutEnded x;
  sf_stderrEnded : stderrEnded y = stderrEnded x;
  sf_gracePending : gracePending y = gracePending x;
  sf_child : child y = child x;
  sf_showOutput : showOutput y = showOutput x
}.

(** The effects of [updateDisplay] in a log. *)
Definition redraws (x : Execution) : list Effect :=
  filter is_redraw (effects x).

(** The claim as the specification words it: with [showOutput] true and a
    spinner active, a chunk of output that changes the buffer is followed
    by a redraw at once. *)
Definition spinner_redraws_on_every_change : Prop :=
  forall ex cmd a o ch s pre data now,
    currentSpinner ex = Some s ->
    showOutput (execute ex cmd a o ch) = true ->
    has_stdout ch = true ->
    outputBuffer (this (run (execute ex cmd a o ch)
                          (pre ++ [StdoutData data now])))
    <> outputBuffer (this (run (execute ex cmd a o ch) pre)) ->
    redraws (run (execute ex cmd a o ch) (pre ++ [StdoutData data now]))
    <> redraws (run (execute ex cmd a o ch) pre).


(** Before the process has exited. *)
Definition running (x : Execution) : Prop :=
  processExited x = false /\ resolved x = false /\ settlements x = [].






(** The options with the [maxLines] field replaced. *)
Definition with_opt_maxLines (m : option Z) (o : StreamingExecOptions)
  : StreamingExecOptions :=
  {| opt_cwd := opt_cwd o; opt_maxLines := m;
     opt_showOutput := opt_showOutput o |}.

(** The lines one event adds to the buffer: the non-blank, trimmed lines of
    a chunk, when the stream the chunk arrives on exists. *)
Definition delivered_lines (ch : Child) (e : Event) : list string :=
  match e with
  | StdoutData data _ => if has_stdout ch then chunk_lines data else []
  | StderrData data _ => if has_stderr ch then chunk_lines data else []
  | _ => []
  end.


(** A string without a line feed. *)
Definition newline_free (s : string) : Prop :=
  ~ In (Js.chr 10) (list_ascii_of_string s).

(** What every buffered line looks like: not empty, and on one line. *)
Definition buffered_line (s : string) : Prop :=
  s <> EmptyString /\ newline_free s.

(** The command-echo line that opens every redraw. *)
Definition is_echo (e : Effect) : bool :=
  match e with
  | ConsoleLog Blue _ => true
  | _ => false
  end.

(** How many times the display has been redrawn. *)
Definition redraw_count (x : Execution) : nat :=
  List.length (filter is_echo (effects x)).

(** The chunk's [Date.now()] lies in the 100 ms window that starts at
    [start]; other events are not constrained. *)
Definition in_window (start : Z) (e : Event) : Prop :=
  match e with
  | StdoutData _ now | StderrData _ now =>
      start <= now < start + DISPLAY_THROTTLE_MS
  | _ => True
  end.

Example split_keeps_empty_pieces :
  Js.split (Js.chr 10) (line "a" +++ line "  b " +++ "c") = ["a"; "  b "; "c"]
  /\ Js.split (Js.chr 10) (line "a") = ["a"; EmptyString].
Proof. split; reflexivity. Qed.

Example trim_strips_both_ends :
  Js.trim (Js.str [32; 9; 226; 128; 168]%nat +++ "ab c"
           +++ Js.str [13; 239; 187; 191; 10]%nat) = "ab c".
Proof. reflexivity. Qed.

Example num_renders_decimal :
  (Js.num (-3), Js.num 0, Js.num 12) = ("-3", "0", "12").
Proof. reflexivity. Qed.

(* ===================================================================== *)
(** ** The ring buffer *)
(* ===================================================================== *)

Section RingBuffer.

Lemma addToBuffer_maxLines l ex : maxLines (addToBuffer l ex) = maxLines ex.
Proof. unfold addToBuffer. destruct (_ >? _); reflexivity. Qed.

Lemma addToBuffer_currentSpinner l ex :
  currentSpinner (addToBuffer l ex) = currentSpinner ex.
Proof. unfold addToBuffer. destruct (_ >? _); reflexivity. Qed.

Lemma addToBuffer_outputBuffer l ex :
  outputBuffer (addToBuffer l ex) =
    if Z.of_nat (List.length (outputBuffer ex ++ [l])) >? maxLines ex
    then tl (outputBuffer ex ++ [l])
    else outputBuffer ex ++ [l].
Proof. unfold addToBuffer. destruct (_ >? _); reflexivity. Qed.

Lemma length_tl {A} (l : list A) : List.length (tl l) = pred (List.length l).
Proof. destruct l; reflexivity. Qed.

Lemma addToBuffer_bounded l ex :
  0 <= maxLines ex ->
  Z.of_nat (List.length (outputBuffer ex)) <= maxLines ex ->
  Z.of_nat (List.length (outputBuffer (addToBuffer l ex))) <= maxLines ex.
Proof.
  intros Hm Hb. rewrite addToBuffer_outputBuffer.
  destruct (Z.gtb_spec (Z.of_nat (List.length (outputBuffer ex ++ [l])))
              (maxLines ex)) as [Hgt|Hle].
  - rewrite length_tl, length_app in *. simpl in *. lia.
  - exact Hle.
Qed.

Lemma addLines_maxLines lines : forall ex,
  maxLines (addLines lines ex) = maxLines ex.
Proof.
  induction lines as [|l lines IH]; intros ex; simpl; [reflexivity|].
  unfold addLines in IH. rewrite IH. apply addToBuffer_maxLines.
Qed.

Lemma addLines_currentSpinner lines : forall ex,
  currentSpinner (addLines lines ex) = currentSpinner ex.
Proof.
  induction lines as [|l lines IH]; intros ex; simpl; [reflexivity|].
  unfold addLines in IH. rewrite IH. apply addToBuffer_currentSpinner.
Qed.

Lemma addLines_bounded lines : forall ex,
  0 <= maxLines ex ->
  Z.of_nat (List.length (outputBuffer ex)) <= maxLines ex ->
  Z.of_nat (List.length (outputBuffer (addLines lines ex))) <= maxLines ex.
Proof.
  induction lines as [|l lines IH]; intros ex Hm Hb; simpl; [exact Hb|].
  unfold addLines in IH.
  rewrite <- (addToBuffer_maxLines l ex).
  apply IH; rewrite addToBuffer_maxLines; [exact Hm|].
  apply addToBuffer_bounded; assumption.
Qed.

Lemma skipn_snoc_le {A} (k : nat) (l : list A) (a : A) :
  (k <= List.length l)%nat -> skipn k (l ++ [a]) = skipn k l ++ [a].
Proof.
  revert k. induction l as [|b l IH]; intros k Hk; simpl in *.
  - assert (k = 0%nat) by lia. subst. reflexivity.
  - destruct k; simpl; [reflexivity|]. apply IH. lia.
Qed.

Lemma tl_skipn {A} (k : nat) (l : list A) : tl (skipn k l) = skipn (S k) l.
Proof.
  revert k. induction l as [|b l IH]; intros k.
  - destruct k; reflexivity.
  - destruct k; simpl; [reflexivity|]. apply IH.
Qed.

(** From an empty buffer, the buffer holds the last [maxLines] lines added,
    in insertion order. *)
Lemma addLines_lastn lines ex :
  0 <= maxLines ex ->
  outputBuffer ex = [] ->
  outputBuffer (addLines lines ex) = lastn (Z.to_nat (maxLines ex)) lines.
Proof.
  intros Hm He. unfold lastn.
  induction lines as [|l lines IH] using rev_ind.
  - simpl. exact He.
  - assert (Hstep : addLines (lines ++ [l]) ex
                    = addToBuffer l (addLines lines ex))
      by (unfold addLines; rewrite fold_left_app; reflexivity).
    rewrite Hstep, addToBuffer_outputBuffer, addLines_maxLines, IH.
    rewrite !length_app, length_skipn. simpl List.length.
    set (n := List.length lines). set (m := Z.to_nat (maxLines ex)).
    destruct (Z.gtb_spec (Z.of_nat (n - (n - m) + 1)) (maxLines ex))
      as [Hgt|Hle].
    + assert (Hnm : (m <= n)%nat) by lia.
      rewrite <- skipn_snoc_le by (unfold n; lia).
      rewrite tl_skipn. f_equal. lia.
    + assert (Hnm : (n < m)%nat) by lia.
      replace (n - m)%nat with 0%nat by lia.
      replace (n + 1 - m)%nat with 0%nat by lia.
      reflexivity.
Qed.

End RingBuffer.

(* ===================================================================== *)
(** ** What the display code leaves alone *)
(* ===================================================================== *)

Arguments failureMessage : simpl never.
Arguments timeoutMessage : simpl never.
Arguments command_line : simpl never.
Arguments Js.num : simpl never.
Arguments Js.esc : simpl never.
Arguments Js.nl : simpl never.
Arguments String.append : simpl never.

Lemma same_control_refl x : same_control x x.
Proof. constructor; reflexivity. Qed.

Lemma same_control_trans x y z :
  same_control x y -> same_control y z -> same_control x z.
Proof.
  intros [] []. constructor; etransitivity; eassumption.
Qed.

(** Rewrite the control fields of [y] into those of [x]. *)
Ltac transport H :=
  rewrite ?(sc_command H), ?(sc_args H), ?(sc_showOutput H), ?(sc_child H),
    ?(sc_resolved H), ?(sc_stdoutEnded H), ?(sc_stderrEnded H),
    ?(sc_processExited H), ?(sc_exitCode H), ?(sc_overallPending H),
    ?(sc_gracePending H), ?(sc_maxLines H), ?(sc_currentSpinner H) in *.

Section Display.

Lemma fold_emit (f : string -> Effect) (ls : list string) : forall x,
  let y := fold_left (fun acc l => emit (f l) acc) ls x in
  same_control x y /\ this y = this x
  /\ hasOutput y = hasOutput x
  /\ lastDisplayUpdate y = lastDisplayUpdate x
  /\ effects y = effects x ++ map f ls.
Proof.
  induction ls as [|l ls IH]; intros x; simpl.
  - rewrite app_nil_r. repeat split; reflexivity.
  - destruct (IH (emit (f l) x)) as (Hc & Ht & Hh & Hl & He).
    repeat split; try apply Hc; try assumption.
    rewrite He. simpl. rewrite <- app_assoc. reflexivity.
Qed.

Lemma updateDisplay_frame cmd x :
  let y := updateDisplay cmd x in
  same_control x y /\ this y = this x
  /\ hasOutput y = hasOutput x
  /\ lastDisplayUpdate y = lastDisplayUpdate x
  /\ effects y = effects x ++ updateDisplay_effects cmd x.
Proof.
  unfold updateDisplay, updateDisplay_effects.
  match goal with
  | |- context [fold_left ?g ?ls ?z] =>
      destruct (fold_emit (fun l => ConsoleLog Gray ("  " +++ l)) ls z)
        as (Hc & Ht & Hh & Hl & He)
  end.
  cbv zeta. rewrite Ht, Hh, Hl, He.
  destruct Hc. destruct x as [t c a so ch ho r ld oe ee pe ec op gp ef].
  destruct t as [buf ml sp].
  destruct sp as [s|]; destruct buf as [|b buf]; simpl in *;
    (split; [constructor; simpl; assumption|]);
    repeat split; rewrite <- ?app_assoc; reflexivity.
Qed.

Lemma updateDisplay_effects_draw cmd x :
  forallb is_draw (updateDisplay_effects cmd x) = true.
Proof.
  unfold updateDisplay_effects.
  rewrite !forallb_app.
  destruct (is_some _); destruct (0 <? _)%nat; simpl;
    apply forallb_forall; intros e He; apply in_map_iff in He;
    destruct He as (l & <- & _); reflexivity.
Qed.

(** Buffering the lines of one chunk. *)
Lemma buffer_lines_frame (ls : list string) : forall x,
  let y := fold_left
             (fun acc l =>
                with_hasOutput true
                  (with_this (addToBuffer (Js.trim l) (this acc)) acc))
             ls x in
  same_control x y
  /\ this y = addLines (map Js.trim ls) (this x)
  /\ hasOutput y = (hasOutput x || negb (Nat.eqb (List.length ls) 0))%bool
  /\ lastDisplayUpdate y = lastDisplayUpdate x
  /\ effects y = effects x.
Proof.
  induction ls as [|l ls IH]; intros x; simpl.
  - rewrite orb_false_r. repeat split; reflexivity.
  - match goal with
    | |- context [fold_left _ ls ?z] =>
        destruct (IH z) as (Hc & Ht & Hh & Hl & He)
    end.
    cbv zeta in *. rewrite Ht, Hh, Hl, He. simpl.
    rewrite orb_true_r.
    destruct Hc. simpl in *.
    split; [constructor; try assumption|repeat split].
    + rewrite sc_maxLines0. apply addToBuffer_maxLines.
    + rewrite sc_currentSpinner0. apply addToBuffer_currentSpinner.
Qed.

Lemma processOutput_frame data isError now x :
  let y := processOutput data isError now x in
  same_control x y
  /\ this y = addLines (chunk_lines data) (this x)
  /\ exists log,
       effects y = effects x ++ log /\ forallb is_draw log = true
       /\ (is_some (currentSpinner (this x)) = true -> log = [])
       /\ (showOutput x = false -> log = []).
Proof.
  unfold processOutput, chunk_lines.
  match goal with
  | |- context [fold_left ?g ?ls ?z] =>
      destruct (buffer_lines_frame ls z) as (Hc & Ht & Hh & Hl & He);
      set (x1 := fold_left g ls z) in *
  end.
  cbv zeta in *.
  assert (Hnone : same_control x x1
                  /\ this x1 = addLines (chunk_lines data) (this x)
                  /\ exists log,
                       effects x1 = effects x ++ log
                       /\ forallb is_draw log = true
                       /\ (is_some (currentSpinner (this x)) = true -> log = [])
                       /\ (showOutput x = false -> log = [])).
  { split; [exact Hc|]. split; [exact Ht|].
    exists []. rewrite app_nil_r. repeat split; auto. }
  destruct (showOutput x1) eqn:Hso; simpl; [|exact Hnone].
  destruct (hasOutput x1) eqn:Hho; simpl; [|exact Hnone].
  destruct (is_some (currentSpinner (this x1))) eqn:Hsp; simpl;
    [exact Hnone|].
  destruct (now - lastDisplayUpdate x1 >=? DISPLAY_THROTTLE_MS);
    [|exact Hnone].
  destruct (updateDisplay_frame (command_line (command x1) (args x1)) x1)
    as (Hc' & Ht' & _ & _ & He').
  cbv zeta in *.
  split.
  { eapply same_control_trans; [exact Hc|].
    destruct Hc'. constructor; simpl; assumption. }
  split; [simpl; rewrite Ht'; exact Ht|].
  eexists. simpl. rewrite He', He. split; [reflexivity|].
  split; [apply updateDisplay_effects_draw|].
  destruct Hc. split.
  - intros Hx. rewrite sc_currentSpinner0 in Hsp. congruence.
  - intros Hx. congruence.
Qed.

End Display.

(* ===================================================================== *)
(** ** Completion: the invariants of the callbacks *)
(* ===================================================================== *)

Ltac open_handlers :=
  unfold dispatch, onExit, onStdoutEnd, onStderrEnd, onGraceTimer,
    onOverallTimeout, onError, checkCompletion, clearOverallTimeout,
    clearDisplay, erase_region, settlements in *.

(** Case analysis on whatever the goal branches on. *)
Ltac branch :=
  match goal with
  | |- context [if ?b then _ else _] => destruct b eqn:?
  | |- context [match ?o with Some _ => _ | None => _ end] => destruct o eqn:?
  | |- context [match ?n with O => _ | S _ => _ end] => destruct n eqn:?
  | |- context [match ?z with Z0 => _ | Zpos _ => _ | Zneg _ => _ end] =>
      destruct z eqn:?
  end.

Ltac branches := simpl in *; repeat (branch; simpl); simpl in *.

(** Split a state into its fields and decide the four completion flags. *)
Ltac open_state x :=
  let t := fresh "t" in
  let r := fresh "r" in
  let oe := fresh "oe" in
  let ee := fresh "ee" in
  let pe := fresh "pe" in
  destruct x as [t ? ? ? [? ?] ? r ? oe ee pe ? ? ? ?];
  destruct r, oe, ee, pe.

Lemma draw_not_settle log :
  forallb is_draw log = true -> filter is_settle log = [].
Proof.
  induction log as [|e log IH]; simpl; [reflexivity|].
  intros H. apply andb_true_iff in H. destruct H as [He Hl].
  destruct e; simpl in *; try discriminate; auto.
Qed.

Lemma processOutput_settlements data isError now x :
  settlements (processOutput data isError now x) = settlements x.
Proof.
  destruct (processOutput_frame data isError now x)
    as (_ & _ & log & He & Hd & _).
  unfold settlements. cbv zeta in He. rewrite He, filter_app.
  rewrite (draw_not_settle _ Hd). apply app_nil_r.
Qed.

Section Completion.

Lemma execute_consistent ex cmd a o ch : consistent (execute ex cmd a o ch).
Proof.
  constructor; simpl; try discriminate; auto; try lia.
  - intros ->. reflexivity.
  - intros ->. reflexivity.
Qed.

Lemma processOutput_consistent data isError now x :
  consistent x -> consistent (processOutput data isError now x).
Proof.
  intros [].
  destruct (processOutput_frame data isError now x) as (Hc & _).
  cbv zeta in Hc.
  constructor; rewrite ?processOutput_settlements; transport Hc;
    assumption.
Qed.

Lemma dispatch_consistent x ev : consistent x -> consistent (dispatch x ev).
Proof.
  intros Hx.
  destruct ev;
    try (simpl; destruct (_ (child x)) eqn:Hch;
         [apply processOutput_consistent; assumption|assumption]).
  all: destruct Hx; open_handlers; open_state x; simpl in *.
  all: constructor; unfold settlements; branches;
    rewrite ?filter_app; simpl; intros; subst; simpl in *;
    repeat match goal with
           | H : ?a = ?a -> _ |- _ => specialize (H eq_refl)
           | H : (0 < S _)%nat -> _ |- _ => specialize (H (Nat.lt_0_succ _))
           | H : _ /\ _ |- _ => destruct H
           | H : exists _, _ |- _ => destruct H
           end;
    try congruence; try lia; auto;
    try (split; [|congruence]);
    try match goal with
        | H : filter _ _ = _ |- _ => rewrite H
        end;
    simpl; eauto; try congruence.
Qed.

End Completion.

Section Traces.

Lemma run_app x evs1 evs2 : run x (evs1 ++ evs2) = run (run x evs1) evs2.
Proof. apply fold_left_app. Qed.

Lemma run_snoc x evs e : run x (evs ++ [e]) = dispatch (run x evs) e.
Proof. rewrite run_app. reflexivity. Qed.

Lemma run_invariant (P : Execution -> Prop) :
  (forall x e, P x -> P (dispatch x e)) ->
  forall evs x, P x -> P (run x evs).
Proof.
  intros Hstep evs. induction evs as [|e evs IH]; intros x Hx; simpl; auto.
Qed.

(** A property that some event establishes and every event keeps holds
    after any trace that contains that event. *)
Lemma run_establishes (Q P : Execution -> Prop) (e0 : Event) :
  (forall x e, Q x -> Q (dispatch x e)) ->
  (forall x e, Q x -> P x -> P (dispatch x e)) ->
  (forall x, Q x -> P (dispatch x e0)) ->
  forall evs x, Q x -> In e0 evs -> P (run x evs).
Proof.
  intros HQ HP H0 evs.
  induction evs as [|e evs IH]; intros x Hx Hin; simpl in *; [tauto|].
  destruct Hin as [->|Hin].
  - apply (run_invariant (fun y => Q y /\ P y)); [|auto].
    intros y e [Hq Hp]. auto.
  - apply IH; auto.
Qed.

Lemma run_consistent evs x : consistent x -> consistent (run x evs).
Proof. apply run_invariant. intros. apply dispatch_consistent. assumption. Qed.

Lemma dispatch_static x ev : same_static x (dispatch x ev).
Proof.
  destruct ev;
    try (simpl; destruct (_ (child x)) eqn:Hch;
         [|constructor; reflexivity];
         match goal with
         | |- context [processOutput ?d ?b ?n ?x] =>
             destruct (processOutput_frame d b n x) as (Hc' & _);
             cbv zeta in Hc'; destruct Hc'; constructor; assumption
         end).
  all: open_handlers; open_state x; simpl in *.
  all: constructor; branches; reflexivity.
Qed.

Lemma run_static evs : forall x, same_static x (run x evs).
Proof.
  induction evs as [|e evs IH]; intros x; simpl.
  - constructor; reflexivity.
  - destruct (IH (dispatch x e)), (dispatch_static x e).
    constructor; congruence.
Qed.

(** The four flags are only ever set, never reset. *)
Lemma dispatch_monotone x ev :
  (resolved x = true -> resolved (dispatch x ev) = true)
  /\ (processExited x = true -> processExited (dispatch x ev) = true)
  /\ (stdoutEnded x = true -> stdoutEnded (dispatch x ev) = true)
  /\ (stderrEnded x = true -> stderrEnded (dispatch x ev) = true).
Proof.
  destruct ev;
    try (simpl; destruct (_ (child x)) eqn:Hch; [|tauto];
         match goal with
         | |- context [processOutput ?d ?b ?n ?x] =>
             destruct (processOutput_frame d b n x) as (Hc' & _);
             cbv zeta in Hc'; transport Hc'; tauto
         end).
  all: open_handlers; open_state x; simpl in *.
  all: repeat split; branches; intros; congruence.
Qed.

(** What each event establishes. *)
Lemma exit_sets_processExited x c : processExited (dispatch x (Exit c)) = true.
Proof. open_handlers; open_state x; branches; reflexivity. Qed.

Lemma stdoutEnd_sets_stdoutEnded x :
  consistent x -> stdoutEnded (dispatch x StdoutEnd) = true.
Proof.
  intros []. open_handlers; open_state x; branches; auto.
Qed.

Lemma stderrEnd_sets_stderrEnded x :
  consistent x -> stderrEnded (dispatch x StderrEnd) = true.
Proof.
  intros []. open_handlers; open_state x; branches; auto.
Qed.

Lemma timeout_sets_resolved x :
  consistent x -> resolved (dispatch x OverallTimeoutFires) = true.
Proof.
  intros []. open_handlers; open_state x; branches; auto;
    repeat match goal with
           | H : ?a = ?a -> _ |- _ => specialize (H eq_refl)
           end; intuition congruence.
Qed.

Lemma error_sets_resolved x e : resolved (dispatch x (SpawnError e)) = true.
Proof. open_handlers; open_state x; branches; reflexivity. Qed.

Lemma run_observes_exit evs x c :
  In (Exit c) evs -> processExited (run x evs) = true.
Proof.
  apply (run_establishes (fun _ => True)
           (fun y => processExited y = true)); auto.
  - intros y e _. apply dispatch_monotone.
  - intros y _. apply exit_sets_processExited.
Qed.

Lemma run_observes_stdoutEnd evs x :
  consistent x -> In StdoutEnd evs -> stdoutEnded (run x evs) = true.
Proof.
  apply (run_establishes consistent (fun y => stdoutEnded y = true)).
  - intros. apply dispatch_consistent. assumption.
  - intros y e _. apply dispatch_monotone.
  - apply stdoutEnd_sets_stdoutEnded.
Qed.

Lemma run_observes_stderrEnd evs x :
  consistent x -> In StderrEnd evs -> stderrEnded (run x evs) = true.
Proof.
  apply (run_establishes consistent (fun y => stderrEnded y = true)).
  - intros. apply dispatch_consistent. assumption.
  - intros y e _. apply dispatch_monotone.
  - apply stderrEnd_sets_stderrEnded.
Qed.

Lemma run_observes_timeout evs x :
  consistent x -> In OverallTimeoutFires evs -> resolved (run x evs) = true.
Proof.
  apply (run_establishes consistent (fun y => resolved y = true)).
  - intros. apply dispatch_consistent. assumption.
  - intros y e _. apply dispatch_monotone.
  - apply timeout_sets_resolved.
Qed.

Lemma run_observes_error evs x e :
  In (SpawnError e) evs -> resolved (run x evs) = true.
Proof.
  apply (run_establishes (fun _ => True) (fun y => resolved y = true)); auto.
  - intros y e' _. apply dispatch_monotone.
  - intros y _. apply error_sets_resolved.
Qed.

Lemma consistent_settled x :
  consistent x ->
  (List.length (settlements x) <= 1)%nat
  /\ (resolved x = true <-> List.length (settlements x) = 1%nat).
Proof.
  intros [Hu Hr _ _ _ _]. destruct (resolved x).
  - destruct (Hr eq_refl) as [[e ->] _]. simpl. split; [lia|tauto].
  - destruct (Hu eq_refl) as [-> _]. simpl. split; [lia|].
    split; discriminate.
Qed.

End Traces.

(* ===================================================================== *)
(** ** Settling exactly once *)
(* ===================================================================== *)

(** C1.  Whatever events the runtime delivers after [execute] has started,
    and in whatever order, the callbacks call [resolve] or [reject] at most
    once altogether, and the [resolved] flag is set exactly when that one
    call has been made.  The call is made exactly once as soon as the trace
    contains the process exit and the end of both streams (a stream that does
    not exist counts as ended), in particular for each of the six orders of
    these three events, with any data, timer or error events in between; and
    likewise as soon as the overall timeout or a spawn error has fired. *)
Theorem execute_settles_exactly_once
    (ex : StreamingExecutor) (cmd : string) (a : list string)
    (o : StreamingExecOptions) (ch : Child) (evs : list Event) :
  let x := run (execute ex cmd a o ch) evs in
  (List.length (settlements x) <= 1)%nat
  /\ (resolved x = true <-> List.length (settlements x) = 1%nat)
  /\ ((exists c, In (Exit c) evs) -> stdout_done ch evs -> stderr_done ch evs ->
      List.length (settlements x) = 1%nat)
  /\ (forall c, Permutation evs [Exit c; StdoutEnd; StderrEnd] ->
      List.length (settlements x) = 1%nat)
  /\ (In OverallTimeoutFires evs -> List.length (settlements x) = 1%nat)
  /\ (forall e, In (SpawnError e) evs -> List.length (settlements x) = 1%nat).
Proof.
  intros x.
  pose proof (execute_consistent ex cmd a o ch) as H0.
  pose proof (run_consistent evs H0) as Hx. fold x in Hx.
  destruct (consistent_settled Hx) as [Hle Hiff].
  assert (Hall : (exists c, In (Exit c) evs) -> stdout_done ch evs ->
                 stderr_done ch evs -> List.length (settlements x) = 1%nat).
  { intros [c Hc] Hout Herr. apply Hiff. apply (c_complete Hx).
    - apply (run_observes_exit _ _ _ Hc).
    - destruct Hout as [Hno|Hin].
      + apply (c_no_stdout Hx).
        unfold x. rewrite (st_child (run_static evs _)). exact Hno.
      + apply run_observes_stdoutEnd; assumption.
    - destruct Herr as [Hno|Hin].
      + apply (c_no_stderr Hx).
        unfold x. rewrite (st_child (run_static evs _)). exact Hno.
      + apply run_observes_stderrEnd; assumption. }
  repeat split; try apply Hiff; auto.
  - intros c Hp. apply Hall.
    + exists c. apply (Permutation_in _ (Permutation_sym Hp)). simpl. auto.
    + right. apply (Permutation_in _ (Permutation_sym Hp)). simpl. auto.
    + right. apply (Permutation_in _ (Permutation_sym Hp)). simpl. auto.
  - intros Hin. apply Hiff. apply run_observes_timeout; assumption.
  - intros e Hin. apply Hiff. apply (run_observes_error _ _ _ Hin).
Qed.

(** The order stderr-end, exit, stdout-end, with data, a late grace timer
    and a late timeout around them. *)
Lemma execute_settles_exactly_once_witness :
  List.length
    (settlements
       (run (execute (new_StreamingExecutor None) "git" ["pull"] no_options
               piped)
          [StdoutData (line "Already up to date.") 1000; StderrEnd;
           Exit (Some 0); StdoutEnd; GraceTimerFires; OverallTimeoutFires]))
  = 1%nat.
Proof.
  refine (proj1 (proj2 (proj2
            (execute_settles_exactly_once (new_StreamingExecutor None) "git"
               ["pull"] no_options piped _))) _ _ _).
  - exists (Some 0). simpl. auto 10.
  - right. simpl. auto 10.
  - right. simpl. auto 10.
Defined.

(* ===================================================================== *)
(** ** What completion waits for *)
(* ===================================================================== *)

Section Waiting.

(** Where a flag that is set after an event came from. *)
Lemma dispatch_flag_origin x ev :
  (processExited (dispatch x ev) = true ->
   processExited x = true \/ exists c, ev = Exit c)
  /\ (stdoutEnded (dispatch x ev) = true ->
      stdoutEnded x = true \/ ev = StdoutEnd
      \/ (ev = GraceTimerFires /\ (0 < gracePending x)%nat))
  /\ (stderrEnded (dispatch x ev) = true ->
      stderrEnded x = true \/ ev = StderrEnd
      \/ (ev = GraceTimerFires /\ (0 < gracePending x)%nat)).
Proof.
  destruct ev;
    try (simpl; destruct (_ (child x)) eqn:Hch; [|tauto];
         match goal with
         | |- context [processOutput ?d ?b ?n ?x] =>
             destruct (processOutput_frame d b n x) as (Hc' & _);
             cbv zeta in Hc'; transport Hc'; tauto
         end).
  all: open_handlers; open_state x; simpl in *.
  all: repeat split; branches; intros; eauto; try congruence;
    try (right; right; split; [reflexivity|lia]).
Qed.

Lemma grace_after_exit_snoc evs e :
  grace_after_exit evs -> grace_after_exit (evs ++ [e]).
Proof.
  intros (evs1 & c & evs2 & -> & Hin).
  exists evs1, c, (evs2 ++ [e]). split.
  - rewrite <- app_assoc. reflexivity.
  - apply in_or_app. auto.
Qed.

Lemma grace_after_exit_fires evs c :
  In (Exit c) evs -> grace_after_exit (evs ++ [GraceTimerFires]).
Proof.
  intros Hin. apply in_split in Hin. destruct Hin as (evs1 & evs2 & ->).
  exists evs1, c, (evs2 ++ [GraceTimerFires]). split.
  - rewrite <- app_assoc. reflexivity.
  - apply in_or_app. right. simpl. auto.
Qed.

Lemma run_justified ex cmd a o ch evs :
  justified ch evs (run (execute ex cmd a o ch) evs).
Proof.
  induction evs as [|e evs IH] using rev_ind.
  - constructor; simpl; try discriminate.
    + intros H. left. left. destruct (has_stdout ch); [discriminate|auto].
    + intros H. left. left. destruct (has_stderr ch); [discriminate|auto].
  - rewrite run_snoc.
    set (x := run (execute ex cmd a o ch) evs) in *.
    pose proof (run_consistent evs (execute_consistent ex cmd a o ch)) as Hx.
    fold x in Hx.
    destruct (dispatch_flag_origin x e) as (Hpe & Hoe & Hee).
    destruct IH as [Jx Jo Je].
    assert (Hgrace : (0 < gracePending x)%nat ->
                     grace_after_exit (evs ++ [GraceTimerFires])).
    { intros Hg. destruct (Jx (c_grace Hx Hg)) as [c Hc].
      apply (grace_after_exit_fires _ _ Hc). }
    constructor.
    + intros H. destruct (Hpe H) as [Hp|[c ->]].
      * destruct (Jx Hp) as [c Hc]. exists c. apply in_or_app. auto.
      * exists c. apply in_or_app. right. simpl. auto.
    + intros H. destruct (Hoe H) as [Hp|[->|[-> Hg]]].
      * destruct (Jo Hp) as [[Hno|Hin]|Hg].
        -- left. left. exact Hno.
        -- left. right. apply in_or_app. auto.
        -- right. apply grace_after_exit_snoc. exact Hg.
      * left. right. apply in_or_app. right. simpl. auto.
      * right. auto.
    + intros H. destruct (Hee H) as [Hp|[->|[-> Hg]]].
      * destruct (Je Hp) as [[Hno|Hin]|Hg].
        -- left. left. exact Hno.
        -- left. right. apply in_or_app. auto.
        -- right. apply grace_after_exit_snoc. exact Hg.
      * left. right. apply in_or_app. right. simpl. auto.
      * right. auto.
Qed.

(** A callback other than the timeout's and the error handler's settles
    only through [checkCompletion], with all three flags set. *)
Lemma settling_step_flags x e :
  settlements x = [] ->
  settlements (dispatch x e) <> [] ->
  e <> OverallTimeoutFires ->
  (forall err, e <> SpawnError err) ->
  processExited (dispatch x e) = true
  /\ stdoutEnded (dispatch x e) = true
  /\ stderrEnded (dispatch x e) = true.
Proof.
  intros Hs Hs' Ht He.
  destruct e;
    try (exfalso; simpl in Hs'; destruct (_ (child x));
         rewrite ?processOutput_settlements in Hs'; congruence);
    try congruence; try (exfalso; eapply He; reflexivity).
  all: revert Hs Hs'; clear Ht He.
  all: open_handlers; open_state x; simpl in *.
  all: branches; rewrite ?filter_app; simpl; intros;
    repeat split; try reflexivity; try congruence;
    exfalso;
    repeat match goal with
           | H : filter _ _ = [] |- _ => rewrite H in *
           end; simpl in *; congruence.
Qed.

End Waiting.

(** C2, as amended.  When the callback that settles the promise is neither
    the overall timeout's nor the spawn-error handler's, the three flags
    [processExited], [stdoutEnded] and [stderrEnded] are all set at that
    moment; the exit event has been observed; and each stream either never
    existed, or has emitted its end event, or was forced to count as ended
    by the grace timer firing after the exit event. *)
Theorem completion_waits_for_exit_and_streams
    (ex : StreamingExecutor) (cmd : string) (a : list string)
    (o : StreamingExecOptions) (ch : Child) (pre : list Event) (e : Event) :
  ends_execution (execute ex cmd a o ch) pre e ->
  e <> OverallTimeoutFires ->
  (forall err, e <> SpawnError err) ->
  let x := run (execute ex cmd a o ch) (pre ++ [e]) in
  (processExited x = true /\ stdoutEnded x = true /\ stderrEnded x = true)
  /\ (exists c, In (Exit c) (pre ++ [e]))
  /\ (stdout_done ch (pre ++ [e]) \/ grace_after_exit (pre ++ [e]))
  /\ (stderr_done ch (pre ++ [e]) \/ grace_after_exit (pre ++ [e])).
Proof.
  intros [Hpre Hpost] Ht He x.
  assert (Hflags : processExited x = true /\ stdoutEnded x = true
                   /\ stderrEnded x = true).
  { unfold x. rewrite run_snoc. rewrite run_snoc in Hpost.
    apply settling_step_flags; assumption. }
  destruct Hflags as (Hp & Ho & Hr).
  destruct (run_justified ex cmd a o ch (pre ++ [e])) as [Jx Jo Je].
  fold x in Jx, Jo, Je. auto 10.
Qed.

(** The grace timer completes an execution whose streams exist and have not
    ended. *)
Lemma completion_waits_for_exit_and_streams_witness :
  let evs := [Exit (Some 0); GraceTimerFires] in
  let x := run (execute (new_StreamingExecutor None) "ls" [] no_options piped)
               evs in
  (processExited x = true /\ stdoutEnded x = true /\ stderrEnded x = true)
  /\ (exists c, In (Exit c) evs)
  /\ (stdout_done piped evs \/ grace_after_exit evs)
  /\ (stderr_done piped evs \/ grace_after_exit evs).
Proof.
  apply (@completion_waits_for_exit_and_streams (new_StreamingExecutor None)
           "ls" [] no_options piped [Exit (Some 0)] GraceTimerFires).
  - split; [reflexivity|discriminate].
  - discriminate.
  - discriminate.
Defined.

(** The claim as worded fails: after the exit event alone, the grace timer
    settles the promise although neither stream has emitted its end event. *)
Lemma grace_timer_completes_without_stream_ends :
  ~ waits_for_all_three_events.
Proof.
  intros H.
  destruct (H (new_StreamingExecutor None) "ls" [] no_options piped
              [Exit (Some 0)] GraceTimerFires) as (_ & [Hout|Hout] & _).
  - split; [reflexivity|discriminate].
  - discriminate.
  - discriminate.
  - discriminate.
  - simpl in Hout. intuition discriminate.
Qed.

(* ===================================================================== *)
(** ** The ring buffer during an execution *)
(* ===================================================================== *)

(** Every callback either leaves the buffer alone, empties it, or adds the
    lines of one chunk to it. *)
Lemma dispatch_buffer x ev :
  this (dispatch x ev) = this x
  \/ this (dispatch x ev) = with_outputBuffer [] (this x)
  \/ exists data, this (dispatch x ev) = addLines (chunk_lines data) (this x).
Proof.
  destruct ev;
    try (simpl; destruct (_ (child x)) eqn:Hch; [|tauto];
         match goal with
         | |- context [processOutput ?d ?b ?n ?x] =>
             destruct (processOutput_frame d b n x) as (_ & Ht & _);
             right; right; exists d; exact Ht
         end).
  all: open_handlers; open_state x; simpl in *.
  all: branches; auto.
Qed.

Lemma run_buffer_bounded evs : forall x,
  0 <= maxLines (this x) ->
  Z.of_nat (List.length (outputBuffer (this x))) <= maxLines (this x) ->
  Z.of_nat (List.length (outputBuffer (this (run x evs))))
  <= maxLines (this x).
Proof.
  induction evs as [|e evs IH]; intros x Hm Hb; simpl; [exact Hb|].
  rewrite <- (st_maxLines (dispatch_static x e)).
  apply IH; rewrite (st_maxLines (dispatch_static x e)); [exact Hm|].
  destruct (dispatch_buffer x e) as [->|[->|[data ->]]].
  - exact Hb.
  - simpl. exact Hm.
  - apply addLines_bounded; assumption.
Qed.

(** C3.  With a capacity [maxLines >= 0] and a buffer within capacity (the
    empty buffer [execute] starts from, for one), adding any sequence of
    lines leaves at most [maxLines] entries in the buffer.  Adding a line to
    a full buffer removes exactly the oldest entry and keeps the others in
    insertion order with the new line last; adding to a buffer that is not
    full removes nothing.  From the empty buffer the content is the last
    [maxLines] lines added, in insertion order.  The bound holds for the
    buffer of an execution after every trace of events. *)
Theorem ring_buffer_bounded_fifo
    (ex : StreamingExecutor) (lines : list string) :
  0 <= maxLines ex ->
  Z.of_nat (List.length (outputBuffer ex)) <= maxLines ex ->
  Z.of_nat (List.length (outputBuffer (addLines lines ex))) <= maxLines ex
  /\ (forall l,
        Z.of_nat (List.length (outputBuffer ex)) = maxLines ex ->
        outputBuffer (addToBuffer l ex) = tl (outputBuffer ex ++ [l]))
  /\ (forall l oldest rest,
        outputBuffer ex = oldest :: rest ->
        Z.of_nat (List.length (outputBuffer ex)) = maxLines ex ->
        outputBuffer (addToBuffer l ex) = rest ++ [l])
  /\ (forall l,
        Z.of_nat (List.length (outputBuffer ex)) < maxLines ex ->
        outputBuffer (addToBuffer l ex) = outputBuffer ex ++ [l])
  /\ (outputBuffer ex = [] ->
      outputBuffer (addLines lines ex) = lastn (Z.to_nat (maxLines ex)) lines)
  /\ (forall cmd a o ch evs,
        Z.of_nat
          (List.length
             (outputBuffer (this (run (execute ex cmd a o ch) evs))))
        <= maxLines ex).
Proof.
  intros Hm Hb.
  assert (Hfull : forall l,
             Z.of_nat (List.length (outputBuffer ex)) = maxLines ex ->
             outputBuffer (addToBuffer l ex) = tl (outputBuffer ex ++ [l])).
  { intros l Hf. rewrite addToBuffer_outputBuffer, length_app. simpl.
    destruct (Z.gtb_spec (Z.of_nat (List.length (outputBuffer ex) + 1))
                (maxLines ex)); [reflexivity|lia]. }
  split; [apply addLines_bounded; assumption|].
  split; [exact Hfull|].
  split.
  { intros l oldest rest Hb' Hf. rewrite (Hfull l Hf), Hb'. reflexivity. }
  split.
  { intros l Hlt. rewrite addToBuffer_outputBuffer, length_app. simpl.
    destruct (Z.gtb_spec (Z.of_nat (List.length (outputBuffer ex) + 1))
                (maxLines ex)); [lia|reflexivity]. }
  split; [apply addLines_lastn; assumption|].
  intros cmd a o ch evs.
  apply (run_buffer_bounded evs (execute ex cmd a o ch)); simpl; assumption.
Qed.

(** Capacity 3, five lines added to a buffer that already holds one. *)
Lemma ring_buffer_bounded_fifo_witness :
  let ex := {| outputBuffer := ["a"]; maxLines := 3; currentSpinner := None |} in
  let lines := ["b"; "c"; "d"; "e"; "f"] in
  outputBuffer (addLines lines ex) = ["d"; "e"; "f"]
  /\ Z.of_nat (List.length (outputBuffer (addLines lines ex))) <= maxLines ex.
Proof.
  split; [reflexivity|].
  apply (@ring_buffer_bounded_fifo
           {| outputBuffer := ["a"]; maxLines := 3; currentSpinner := None |}
           ["b"; "c"; "d"; "e"; "f"]); simpl; lia.
Defined.

(* ===================================================================== *)
(** ** The step that completes an execution *)
(* ===================================================================== *)

Section CompletionStep.

(** The callback that completes an execution cancels the overall timeout,
    calls [clearDisplay] exactly when [showOutput] is false, and then
    settles according to the exit code, building the failure message from
    the buffer as [clearDisplay] left it. *)
Lemma completion_step x e :
  settlements x = [] ->
  settlements (dispatch x e) <> [] ->
  e <> OverallTimeoutFires ->
  (forall err, e <> SpawnError err) ->
  let y := dispatch x e in
  (if showOutput x
   then this y = this x
        /\ effects y =
             effects x ++ before_check e ++ [ClearTimeout OverallTimeout]
             ++ [outcome (exitCode y) (outputBuffer (this x))]
   else this y = with_outputBuffer [] (this x)
        /\ effects y =
             effects x ++ before_check e ++ [ClearTimeout OverallTimeout]
             ++ clearDisplay_effects x ++ [outcome (exitCode y) []]).
Proof.
  intros Hs Hs' Ht He.
  destruct e;
    try (exfalso; simpl in Hs'; destruct (_ (child x));
         rewrite ?processOutput_settlements in Hs'; congruence);
    try congruence; try (exfalso; eapply He; reflexivity).
  all: revert Hs Hs'; clear Ht He.
  all: unfold clearDisplay_effects, outcome, before_check.
  all: open_handlers; open_state x; simpl in *.
  all: branches; rewrite ?filter_app; simpl; intros;
    try (exfalso;
         repeat match goal with
                | H : filter _ _ = [] |- _ => rewrite H in *
                end; simpl in *; congruence).
  all: split; repeat (rewrite <- ?app_assoc; simpl); try reflexivity.
  all: congruence.
Qed.

End CompletionStep.

Section SettlingStep.

Variables (ex : StreamingExecutor) (cmd : string) (a : list string)
          (o : StreamingExecOptions) (ch : Child).

Let x0 := execute ex cmd a o ch.

Lemma settlements_snoc x l e :
  effects x = l ++ [e] -> is_settle e = true ->
  settlements x = filter is_settle l ++ [e].
Proof.
  intros He Hs. unfold settlements. rewrite He, filter_app. simpl.
  rewrite Hs. reflexivity.
Qed.

(** The completing step at the level of traces. *)
Lemma completing_event pre e :
  ends_execution x0 pre e ->
  e <> OverallTimeoutFires ->
  (forall err, e <> SpawnError err) ->
  let before := run x0 pre in
  let after := run x0 (pre ++ [e]) in
  if showOutput x0
  then this after = this before
       /\ effects after =
            effects before ++ before_check e ++ [ClearTimeout OverallTimeout]
            ++ [outcome (exitCode after) (outputBuffer (this before))]
       /\ settlements after =
            [outcome (exitCode after) (outputBuffer (this before))]
  else this after = with_outputBuffer [] (this before)
       /\ effects after =
            effects before ++ before_check e ++ [ClearTimeout OverallTimeout]
            ++ clearDisplay_effects before ++ [outcome (exitCode after) []]
       /\ settlements after = [outcome (exitCode after) []].
Proof.
  intros [Hpre Hpost] Ht He before after.
  unfold after in *. rewrite run_snoc in *. fold before in Hpost |- *.
  pose proof (@completion_step before e Hpre Hpost Ht He) as Hstep.
  cbv zeta in Hstep. fold before in Hpre.
  pose proof (st_showOutput (run_static pre x0)) as Hso.
  fold before in Hso. rewrite Hso in Hstep.
  assert (Hset : forall c b, is_settle (outcome c b) = true).
  { intros [[|p|p]|] b; reflexivity. }
  assert (Hcd : filter is_settle (clearDisplay_effects before) = []).
  { unfold clearDisplay_effects. destruct (0 <? _)%nat; reflexivity. }
  assert (Hbc : filter is_settle (before_check e) = []).
  { destruct e; reflexivity. }
  unfold settlements in *.
  destruct (showOutput x0); destruct Hstep as [Hthis Heff];
    (split; [exact Hthis|]); (split; [exact Heff|]);
    rewrite Heff, !filter_app, Hpre, Hbc, ?Hcd; simpl;
    rewrite Hset; reflexivity.
Qed.

End SettlingStep.

(* ===================================================================== *)
(** ** The failure message *)
(* ===================================================================== *)

(** With [showOutput] true, a non-zero exit code rejects with the exit code
    followed by every buffered line, oldest first, one per line. *)
Lemma failure_message_carries_buffer_when_shown
    (ex : StreamingExecutor) (cmd : string) (a : list string)
    (o : StreamingExecOptions) (ch : Child) (pre : list Event) (e : Event)
    (c : Z) :
  showOutput (execute ex cmd a o ch) = true ->
  ends_execution (execute ex cmd a o ch) pre e ->
  e <> OverallTimeoutFires ->
  (forall err, e <> SpawnError err) ->
  exitCode (run (execute ex cmd a o ch) (pre ++ [e])) = Some c ->
  c <> 0 ->
  let buffer := outputBuffer (this (run (execute ex cmd a o ch) pre)) in
  settlements (run (execute ex cmd a o ch) (pre ++ [e]))
  = [Reject (Error (failureMessage c buffer))]
  /\ (buffer <> [] ->
      failureMessage c buffer
      = "Command failed with exit code " +++ Js.num c +++ Js.nl
        +++ Js.join Js.nl buffer).
Proof.
  intros Hso Hend Ht He Hc Hnz buffer.
  pose proof (completing_event Hend Ht He) as H. cbv zeta in H.
  rewrite Hso, Hc in H. destruct H as (_ & _ & Hs).
  split.
  - rewrite Hs. unfold buffer. destruct c; [congruence|reflexivity..].
  - intros Hne. unfold failureMessage.
    destruct buffer; [congruence|reflexivity].
Qed.

Lemma append_empty_r (s : string) : s +++ EmptyString = s.
Proof.
  induction s as [|ch s IH]; [reflexivity|].
  change (String ch s +++ EmptyString)
    with (String ch (s +++ EmptyString)).
  rewrite IH. reflexivity.
Qed.

(** With [showOutput] false, [clearDisplay] has emptied the buffer by the
    time the message is built, so the message is the exit code alone. *)
Lemma failure_message_is_bare_when_quiet
    (ex : StreamingExecutor) (cmd : string) (a : list string)
    (o : StreamingExecOptions) (ch : Child) (pre : list Event) (e : Event)
    (c : Z) :
  showOutput (execute ex cmd a o ch) = false ->
  ends_execution (execute ex cmd a o ch) pre e ->
  e <> OverallTimeoutFires ->
  (forall err, e <> SpawnError err) ->
  exitCode (run (execute ex cmd a o ch) (pre ++ [e])) = Some c ->
  c <> 0 ->
  settlements (run (execute ex cmd a o ch) (pre ++ [e]))
  = [Reject (Error ("Command failed with exit code " +++ Js.num c))].
Proof.
  intros Hso Hend Ht He Hc Hnz.
  pose proof (completing_event Hend Ht He) as H. cbv zeta in H.
  rewrite Hso, Hc in H. destruct H as (_ & _ & Hs).
  rewrite Hs. unfold outcome, failureMessage. simpl.
  rewrite append_empty_r.
  destruct c; [congruence|reflexivity..].
Qed.

(** C4.  The code at an input where the claim fails: a command run with
    [showOutput: false] prints [boom] on stderr and exits with code 2.  The
    buffer holds [boom] when the last stream ends, yet the rejection
    message is the exit code alone: [checkCompletion] calls [clearDisplay],
    which empties the buffer, before it builds the message.  (With
    [showOutput] true the same run rejects with the exit code and the
    buffered line.) *)
Theorem quiet_failure_message_drops_buffer :
  let pre := [StderrData (line "boom") 0; Exit (Some 2); StdoutEnd] in
  let quietly := execute (new_StreamingExecutor None) "make" ["test"] quiet
                   piped in
  let shown := execute (new_StreamingExecutor None) "make" ["test"] no_options
                 piped in
  outputBuffer (this (run quietly pre)) = ["boom"]
  /\ settlements (run quietly pre) = []
  /\ settlements (run quietly (pre ++ [StderrEnd]))
     = [Reject (Error "Command failed with exit code 2")]
  /\ settlements (run shown (pre ++ [StderrEnd]))
     = [Reject (Error ("Command failed with exit code 2" +++ Js.nl +++ "boom"))].
Proof. repeat split; vm_compute; reflexivity. Qed.

(* ===================================================================== *)
(** ** Clearing the display on completion *)
(* ===================================================================== *)

(** C5, as amended.  With [showOutput] true, spinner or not, the callback
    that completes an execution through the completion check does not clear
    the live display: [clearDisplay] is not called, the executor and its
    buffer are left as they were, and nothing is written to the terminal.
    All the callback does after its own bookkeeping is cancel the overall
    timeout and settle; for a successful execution, call [resolve]. *)
Theorem completion_leaves_display_when_shown
    (ex : StreamingExecutor) (cmd : string) (a : list string)
    (o : StreamingExecOptions) (ch : Child) (pre : list Event) (e : Event) :
  showOutput (execute ex cmd a o ch) = true ->
  ends_execution (execute ex cmd a o ch) pre e ->
  e <> OverallTimeoutFires ->
  (forall err, e <> SpawnError err) ->
  let before := run (execute ex cmd a o ch) pre in
  let after := run (execute ex cmd a o ch) (pre ++ [e]) in
  this after = this before
  /\ effects after =
       effects before ++ before_check e
       ++ [ClearTimeout OverallTimeout;
           outcome (exitCode after) (outputBuffer (this before))]
  /\ (settlements after = [Resolve] ->
      effects after =
        effects before ++ before_check e
        ++ [ClearTimeout OverallTimeout; Resolve]).
Proof.
  intros Hso Hend Ht He before after.
  pose proof (completing_event Hend Ht He) as H. cbv zeta in H.
  fold before after in H. rewrite Hso in H.
  destruct H as (Hthis & Heff & Hset).
  split; [exact Hthis|]. split; [exact Heff|].
  intros Hres. rewrite Hres in Hset. injection Hset as Ho.
  rewrite <- Ho in Heff. exact Heff.
Qed.

(** A successful run that drew one line: nothing is erased and the buffer
    still holds the line when [resolve] is called. *)
Lemma completion_leaves_display_when_shown_witness :
  let pre := [StdoutData (line "hi") 1000; Exit (Some 0); StdoutEnd] in
  let x0 := execute (new_StreamingExecutor None) "ls" [] no_options piped in
  this (run x0 (pre ++ [StderrEnd])) = this (run x0 pre)
  /\ effects (run x0 (pre ++ [StderrEnd]))
     = effects (run x0 pre) ++ [ClearTimeout OverallTimeout; Resolve].
Proof.
  pose proof (@completion_leaves_display_when_shown
                (new_StreamingExecutor None) "ls" [] no_options piped
                [StdoutData (line "hi") 1000; Exit (Some 0); StdoutEnd]
                StderrEnd) as H.
  cbv zeta in H. destruct H as (Hthis & _ & Heff).
  - reflexivity.
  - split; vm_compute; [reflexivity|discriminate].
  - discriminate.
  - discriminate.
  - split; [exact Hthis|]. apply Heff. vm_compute. reflexivity.
Defined.

(** The claim as worded fails: the buffer still holds the drawn line when a
    successful execution with [showOutput] true and no spinner resolves. *)
Lemma success_leaves_display_drawn : ~ success_clears_display.
Proof.
  intros H.
  specialize (H (new_StreamingExecutor None) "ls" [] no_options piped
                [StdoutData (line "hi") 1000; Exit (Some 0); StdoutEnd]
                StderrEnd).
  assert (Hbuf : ["hi"] = @nil string); [|discriminate].
  apply H.
  - vm_compute; reflexivity.
  - vm_compute; reflexivity.
  - split; vm_compute; [reflexivity|discriminate].
  - vm_compute; reflexivity.
Qed.

(* ===================================================================== *)
(** ** A null exit code *)
(* ===================================================================== *)

Section NullExitCode.

Lemma fold_left_commute {A B} (f : A -> B -> A) (g : A -> A) :
  (forall acc b, f (g acc) b = g (f acc b)) ->
  forall l acc, fold_left f l (g acc) = g (fold_left f l acc).
Proof.
  intros Hfg l. induction l as [|b l IH]; intros acc; simpl; [reflexivity|].
  rewrite Hfg. apply IH.
Qed.

Lemma updateDisplay_with_exitCode c cmd x :
  updateDisplay cmd (with_exitCode c x)
  = with_exitCode c (updateDisplay cmd x).
Proof.
  destruct x as [[buf ml sp] ? ? ? ? ? ? ? ? ? ? ? ? ? ?].
  destruct sp; destruct buf; unfold updateDisplay;
    cbn -[with_exitCode fold_left String.append];
    (etransitivity;
     [|apply (fold_left_commute _ (with_exitCode c)); reflexivity]);
    reflexivity.
Qed.

Lemma processOutput_with_exitCode c data isError now x :
  processOutput data isError now (with_exitCode c x)
  = with_exitCode c (processOutput data isError now x).
Proof.
  unfold processOutput.
  rewrite (fold_left_commute _ (with_exitCode c)) by reflexivity.
  match goal with
  | |- context [with_exitCode c ?y] => generalize y
  end.
  intros y. simpl.
  destruct (showOutput y && hasOutput y
            && negb (is_some (currentSpinner (this y)))); [|reflexivity].
  destruct (now - lastDisplayUpdate y >=? DISPLAY_THROTTLE_MS);
    [|reflexivity].
  rewrite updateDisplay_with_exitCode. reflexivity.
Qed.

Lemma zero_as_null_idem c : zero_as_null (zero_as_null c) = zero_as_null c.
Proof. destruct c as [[|p|p]|]; reflexivity. Qed.

(** The completion check does not distinguish a stored 0 from a stored
    null. *)
Lemma checkCompletion_forget_zero x :
  forget_zero (checkCompletion (forget_zero x))
  = forget_zero (checkCompletion x).
Proof.
  unfold checkCompletion, forget_zero, clearOverallTimeout, clearDisplay.
  destruct x as [t c a so ch ho r ld oe ee pe ec op gp ef]. simpl.
  destruct (pe && oe && ee && negb r); simpl.
  - destruct so; simpl.
    + destruct ec as [[|p|p]|]; reflexivity.
    + destruct (0 <? List.length (outputBuffer t))%nat;
        destruct ec as [[|p|p]|]; reflexivity.
  - rewrite zero_as_null_idem. reflexivity.
Qed.

(** The timeout and error callbacks do not read the exit code. *)
Lemma onOverallTimeout_with_exitCode c x :
  onOverallTimeout (with_exitCode c x) = with_exitCode c (onOverallTimeout x)
  /\ exitCode (onOverallTimeout x) = exitCode x.
Proof.
  unfold onOverallTimeout, clearDisplay. simpl.
  destruct (resolved x), (showOutput x),
    (0 <? List.length (outputBuffer (this x)))%nat; split; reflexivity.
Qed.

Lemma onError_with_exitCode c err x :
  onError err (with_exitCode c x) = with_exitCode c (onError err x)
  /\ exitCode (onError err x) = exitCode x.
Proof.
  unfold onError, clearOverallTimeout, clearDisplay. simpl.
  destruct (resolved x), (showOutput x),
    (0 <? List.length (outputBuffer (this x)))%nat; split; reflexivity.
Qed.

Lemma forget_zero_with_exitCode x y :
  exitCode y = exitCode x ->
  forget_zero (with_exitCode (zero_as_null (exitCode x)) y) = forget_zero y.
Proof.
  intros H. unfold forget_zero. simpl.
  rewrite zero_as_null_idem, H. reflexivity.
Qed.

(** No callback distinguishes a stored 0 from a stored null. *)
Lemma dispatch_forget_zero x e :
  forget_zero (dispatch (forget_zero x) e) = forget_zero (dispatch x e).
Proof.
  destruct e; simpl.
  - destruct (has_stdout (child x)).
    + unfold forget_zero at 2. rewrite processOutput_with_exitCode.
      apply forget_zero_with_exitCode.
      apply (sc_exitCode (proj1 (processOutput_frame _ _ _ _))).
    + unfold forget_zero. simpl. rewrite zero_as_null_idem. reflexivity.
  - destruct (has_stderr (child x)).
    + unfold forget_zero at 2. rewrite processOutput_with_exitCode.
      apply forget_zero_with_exitCode.
      apply (sc_exitCode (proj1 (processOutput_frame _ _ _ _))).
    + unfold forget_zero. simpl. rewrite zero_as_null_idem. reflexivity.
  - destruct (has_stdout (child x)).
    + exact (checkCompletion_forget_zero (with_stdoutEnded true x)).
    + unfold forget_zero. simpl. rewrite zero_as_null_idem. reflexivity.
  - destruct (has_stderr (child x)).
    + exact (checkCompletion_forget_zero (with_stderrEnded true x)).
    + unfold forget_zero. simpl. rewrite zero_as_null_idem. reflexivity.
  - reflexivity.
  - destruct (gracePending x) as [|k].
    + unfold forget_zero. simpl. rewrite zero_as_null_idem. reflexivity.
    + unfold onGraceTimer. simpl. destruct (resolved x); simpl.
      * unfold forget_zero. simpl. rewrite zero_as_null_idem. reflexivity.
      * exact (checkCompletion_forget_zero
                 (with_stderrEnded true
                    (with_stdoutEnded true (with_gracePending k x)))).
  - destruct (overallPending x).
    + destruct (onOverallTimeout_with_exitCode
                  (zero_as_null (exitCode x))
                  (with_overallPending false x)) as [Hc He].
      change (with_overallPending false (forget_zero x))
        with (with_exitCode (zero_as_null (exitCode x))
                (with_overallPending false x)).
      rewrite Hc. apply forget_zero_with_exitCode. exact He.
    + unfold forget_zero. simpl. rewrite zero_as_null_idem. reflexivity.
  - destruct (onError_with_exitCode (zero_as_null (exitCode x)) e x)
      as [Hc He].
    unfold forget_zero at 2. rewrite Hc.
    apply forget_zero_with_exitCode. exact He.
Qed.

Lemma dispatch_null_as_zero x e :
  forget_zero (dispatch x (null_as_zero e)) = forget_zero (dispatch x e).
Proof.
  destruct e as [| | | |[c|]| | |]; try reflexivity.
  symmetry.
  exact (checkCompletion_forget_zero
           (with_gracePending (S (gracePending x))
              (emit (SetTimeout GraceTimer GRACE_MS)
                 (with_exit (Some 0) x)))).
Qed.

Lemma run_null_as_zero evs : forall x x',
  forget_zero x = forget_zero x' ->
  forget_zero (run x (map null_as_zero evs)) = forget_zero (run x' evs).
Proof.
  induction evs as [|e evs IH]; intros x x' Hx; simpl; [exact Hx|].
  apply IH.
  rewrite dispatch_null_as_zero.
  rewrite <- (dispatch_forget_zero x), <- (dispatch_forget_zero x').
  rewrite Hx. reflexivity.
Qed.

End NullExitCode.

(** C7, as amended.  When the callback that completes an execution is
    neither the overall timeout's nor the spawn-error handler's and it finds
    a null exit code, it calls [resolve], as it does for code 0; and
    replacing null by 0 in the exit events of any trace changes nothing the
    execution does or stores except the stored exit code itself. *)
Theorem null_exit_code_resolves
    (ex : StreamingExecutor) (cmd : string) (a : list string)
    (o : StreamingExecOptions) (ch : Child) (pre : list Event) (e : Event) :
  ends_execution (execute ex cmd a o ch) pre e ->
  e <> OverallTimeoutFires ->
  (forall err, e <> SpawnError err) ->
  let after := run (execute ex cmd a o ch) (pre ++ [e]) in
  (exitCode after = None \/ exitCode after = Some 0 ->
   settlements after = [Resolve])
  /\ (forall evs,
        let x := run (execute ex cmd a o ch) evs in
        let x' := run (execute ex cmd a o ch) (map null_as_zero evs) in
        effects x' = effects x /\ this x' = this x
        /\ resolved x' = resolved x
        /\ zero_as_null (exitCode x') = zero_as_null (exitCode x)).
Proof.
  intros Hend Ht He after. split.
  - intros Hc.
    pose proof (completing_event Hend Ht He) as H. cbv zeta in H.
    fold after in H.
    destruct (showOutput (execute ex cmd a o ch));
      destruct H as (_ & _ & ->); destruct Hc as [-> | ->]; reflexivity.
  - intros evs x x'.
    pose proof (@run_null_as_zero evs (execute ex cmd a o ch)
                  (execute ex cmd a o ch) eq_refl) as H.
    fold x x' in H.
    repeat split.
    + exact (f_equal effects H).
    + exact (f_equal this H).
    + exact (f_equal resolved H).
    + exact (f_equal exitCode H).
Qed.

(** A process killed by a signal after printing one line. *)
Lemma null_exit_code_resolves_witness :
  settlements
    (run (execute (new_StreamingExecutor None) "sleep" ["60"] no_options piped)
       ([StdoutData (line "started") 500; StdoutEnd; StderrEnd]
        ++ [Exit None]))
  = [Resolve].
Proof.
  refine (proj1 (@null_exit_code_resolves (new_StreamingExecutor None)
                   "sleep" ["60"] no_options piped
                   [StdoutData (line "started") 500; StdoutEnd; StderrEnd]
                   (Exit None) _ _ _) _).
  - split; vm_compute; [reflexivity|discriminate].
  - discriminate.
  - discriminate.
  - left. vm_compute; reflexivity.
Defined.

(** The claim as worded fails: the overall timeout kills the child, the
    child exits with a null code, and the promise has been rejected. *)
Lemma killed_on_timeout_exits_null_and_rejects : ~ null_exit_always_resolves.
Proof.
  intros H.
  specialize (H (new_StreamingExecutor None) "sleep" ["60"] no_options piped
                [OverallTimeoutFires; Exit None; StdoutEnd; StderrEnd]).
  assert (Hset : [Reject (Error "Command timed out after 30 seconds: sleep 60")]
                 = [Resolve]); [|discriminate].
  apply H.
  - simpl. auto.
  - simpl. intros c [Hc|[Hc|[Hc|[Hc|[]]]]]; congruence.
  - vm_compute. discriminate.
Qed.

(* ===================================================================== *)
(** ** The callbacks in closed form *)
(* ===================================================================== *)

Section ClosedForms.

(** Either the completion check does nothing, or the three flags were set
    and the execution unresolved, and it settles by the exit code. *)
Lemma checkCompletion_cases x :
  (checkCompletion x = x
   /\ (processExited x = false \/ stdoutEnded x = false
       \/ stderrEnded x = false \/ resolved x = true))
  \/ (processExited x = true /\ stdoutEnded x = true
      /\ stderrEnded x = true /\ resolved x = false
      /\ resolved (checkCompletion x) = true
      /\ same_flags x (checkCompletion x)
      /\ exists log,
           effects (checkCompletion x) = effects x ++ log
           /\ filter is_redraw log = []
           /\ filter is_settle log
              = [outcome (exitCode x)
                   (if showOutput x then outputBuffer (this x) else [])]).
Proof.
  unfold checkCompletion, clearOverallTimeout, clearDisplay, erase_region.
  destruct x as [t c a so ch ho r ld oe ee pe ec op gp ef]. simpl.
  destruct pe; simpl; [|left; auto].
  destruct oe; simpl; [|left; auto].
  destruct ee; simpl; [|left; auto].
  destruct r; simpl; [left; auto 6|].
  right.
  destruct so; simpl;
    [|destruct (0 <? List.length (outputBuffer t))%nat; simpl];
    destruct ec as [[|p|p]|]; simpl;
    repeat (split; try reflexivity);
    eexists; repeat (rewrite <- ?app_assoc; simpl);
    (split; [reflexivity|split; reflexivity]).
Qed.

(** The timeout callback on an unresolved execution: [kill], then
    [clearDisplay] when [showOutput] is set, then [reject]. *)
Lemma onOverallTimeout_unresolved x :
  resolved x = false ->
  effects (onOverallTimeout x)
  = effects x ++ [Kill]
    ++ (if showOutput x then clearDisplay_effects x else [])
    ++ [Reject (Error (timeoutMessage (command x) (args x)))].
Proof.
  unfold onOverallTimeout, clearDisplay, clearDisplay_effects, erase_region.
  destruct x as [t c a so ch ho r ld oe ee pe ec op gp ef]. simpl.
  intros ->. simpl.
  destruct so; simpl;
    [destruct (0 <? List.length (outputBuffer t))%nat; simpl|];
    repeat (rewrite <- ?app_assoc; simpl); reflexivity.
Qed.

Lemma onOverallTimeout_resolved x :
  resolved x = true -> onOverallTimeout x = x.
Proof. unfold onOverallTimeout. intros ->. reflexivity. Qed.


End ClosedForms.

(* ===================================================================== *)
(** ** The live display while a spinner is active *)
(* ===================================================================== *)

Section SpinnerActive.

Lemma clearDisplay_effects_redraw x :
  filter is_redraw (clearDisplay_effects x) = [].
Proof.
  unfold clearDisplay_effects. destruct (0 <? _)%nat; reflexivity.
Qed.

Lemma checkCompletion_redraws x : redraws (checkCompletion x) = redraws x.
Proof.
  destruct (checkCompletion_cases x)
    as [[-> _]|(_ & _ & _ & _ & _ & _ & log & He & Hr & _)];
    [reflexivity|].
  unfold redraws. rewrite He, filter_app, Hr. apply app_nil_r.
Qed.

Lemma onError_unresolved err x :
  resolved x = false ->
  effects (onError err x)
  = effects x ++ [ClearTimeout OverallTimeout]
    ++ (if showOutput x then clearDisplay_effects x else [])
    ++ [Reject err].
Proof.
  unfold onError, clearOverallTimeout, clearDisplay, clearDisplay_effects,
    erase_region.
  destruct x as [t c a so ch ho r ld oe ee pe ec op gp ef]. simpl.
  intros ->. simpl.
  destruct so; simpl;
    [destruct (0 <? List.length (outputBuffer t))%nat; simpl|];
    repeat (rewrite <- ?app_assoc; simpl); reflexivity.
Qed.

Lemma onOverallTimeout_redraws x : redraws (onOverallTimeout x) = redraws x.
Proof.
  destruct (resolved x) eqn:Hr.
  - rewrite onOverallTimeout_resolved by assumption. reflexivity.
  - unfold redraws. rewrite onOverallTimeout_unresolved by assumption.
    rewrite !filter_app. simpl.
    destruct (showOutput x); rewrite ?clearDisplay_effects_redraw;
      simpl; apply app_nil_r.
Qed.

Lemma onError_redraws err x : redraws (onError err x) = redraws x.
Proof.
  destruct (resolved x) eqn:Hr.
  - unfold onError. rewrite Hr. reflexivity.
  - unfold redraws. rewrite onError_unresolved by assumption.
    rewrite !filter_app. simpl.
    destruct (showOutput x); rewrite ?clearDisplay_effects_redraw;
      simpl; apply app_nil_r.
Qed.

(** With a spinner stored in [currentSpinner], a chunk of output is
    buffered and nothing is drawn. *)
Lemma processOutput_under_spinner data isError now x :
  is_some (currentSpinner (this x)) = true ->
  effects (processOutput data isError now x) = effects x
  /\ this (processOutput data isError now x)
     = addLines (chunk_lines data) (this x).
Proof.
  intros Hsp.
  destruct (processOutput_frame data isError now x)
    as (_ & Ht & log & He & _ & Hnil & _).
  cbv zeta in *. rewrite (Hnil Hsp), app_nil_r in He. auto.
Qed.

Lemma dispatch_redraws x e :
  is_some (currentSpinner (this x)) = true ->
  redraws (dispatch x e) = redraws x.
Proof.
  intros Hsp. destruct e; simpl.
  - destruct (has_stdout (child x)); [|reflexivity].
    unfold redraws.
    rewrite (proj1 (processOutput_under_spinner _ _ _ _ Hsp)). reflexivity.
  - destruct (has_stderr (child x)); [|reflexivity].
    unfold redraws.
    rewrite (proj1 (processOutput_under_spinner _ _ _ _ Hsp)). reflexivity.
  - destruct (has_stdout (child x)); [|reflexivity].
    unfold onStdoutEnd. rewrite checkCompletion_redraws. reflexivity.
  - destruct (has_stderr (child x)); [|reflexivity].
    unfold onStderrEnd. rewrite checkCompletion_redraws. reflexivity.
  - unfold onExit. rewrite checkCompletion_redraws.
    unfold redraws. simpl. rewrite filter_app. simpl. apply app_nil_r.
  - destruct (gracePending x) as [|k]; [reflexivity|].
    unfold onGraceTimer. simpl. destruct (resolved x); simpl;
      [reflexivity|].
    rewrite checkCompletion_redraws. reflexivity.
  - destruct (overallPending x); [|reflexivity].
    rewrite onOverallTimeout_redraws. reflexivity.
  - apply onError_redraws.
Qed.

Lemma run_redraws evs : forall x,
  is_some (currentSpinner (this x)) = true ->
  redraws (run x evs) = redraws x.
Proof.
  induction evs as [|e evs IH]; intros x Hsp; simpl; [reflexivity|].
  rewrite IH.
  - apply dispatch_redraws. exact Hsp.
  - rewrite (st_currentSpinner (dispatch_static x e)). exact Hsp.
Qed.

End SpinnerActive.

Section SpinnerCalls.

Lemma settlements_settle x e : In e (settlements x) -> is_settle e = true.
Proof. unfold settlements. intros H. apply filter_In in H. tauto. Qed.

(** The continuation of the [await] does nothing while the promise is
    pending, and runs (resetting the spinner) once it has settled. *)
Lemma afterAwait_cases r :
  completion r = None ->
  (settlements (awaited r) = [] /\ afterAwait r = r)
  \/ (settlements (awaited r) <> [] /\ completion (afterAwait r) <> None
      /\ awaited (afterAwait r) = resetSpinner (awaited r)).
Proof.
  intros Hc. unfold afterAwait. rewrite Hc.
  destruct (settlements (awaited r)) as [|s l] eqn:Hs; [left; auto|].
  right.
  assert (Hset : is_settle s = true)
    by (apply (settlements_settle (awaited r)); rewrite Hs; simpl; auto).
  destruct s; try discriminate; simpl; repeat split; discriminate.
Qed.

Lemma afterAwait_completed r : completion r <> None -> afterAwait r = r.
Proof.
  intros Hc. unfold afterAwait. destruct (completion r); [|congruence].
  reflexivity.
Qed.

Lemma runWithSpinner_snoc r0 evs e :
  runWithSpinner r0 (evs ++ [e])
  = dispatchWithSpinner (runWithSpinner r0 evs) e.
Proof. unfold runWithSpinner. rewrite fold_left_app. reflexivity. Qed.

(** While an [executeWithSpinner] call is still awaiting, its execution has
    run exactly as [run] says and nothing has settled. *)
Lemma awaiting_runs_plain r0 evs :
  settlements (awaited r0) = [] ->
  completion (runWithSpinner r0 evs) = None ->
  awaited (runWithSpinner r0 evs) = run (awaited r0) evs
  /\ settlements (run (awaited r0) evs) = [].
Proof.
  intros H0. induction evs as [|e evs IH] using rev_ind; intros Hc.
  - simpl. auto.
  - rewrite runWithSpinner_snoc in *.
    set (r := runWithSpinner r0 evs) in *.
    unfold dispatchWithSpinner in Hc |- *.
    destruct (completion r) eqn:Hr.
    + rewrite afterAwait_completed in Hc by (simpl; congruence).
      simpl in Hc. congruence.
    + destruct (IH eq_refl) as [Ha Hs].
      match goal with
      | |- context [afterAwait ?q] =>
          destruct (afterAwait_cases q) as [[Hq ->]|(_ & Hq & _)];
          [reflexivity| |]
      end.
      * simpl in *. rewrite run_snoc, <- Ha. auto.
      * congruence.
Qed.

End SpinnerCalls.

(** C6, as amended.  While an [executeWithSpinner] call (and so every
    [executeWithStreaming] call) is awaiting its execution, the spinner is
    stored in [currentSpinner] and no callback calls [updateDisplay]: up to
    and including the event whose callback settles the promise, the log
    holds no command echo, no buffered line and no [spinner.stop()],
    whatever events arrive and whatever [Date.now()] returns.  A chunk of
    output is still split, trimmed and added to the buffer.  Once the
    promise has settled, [currentSpinner] has been reset to [null]. *)
Theorem spinner_suppresses_live_display
    (ex : StreamingExecutor) (cmd : string) (a : list string) (text : string)
    (o : StreamingExecOptions) (ch : Child) (pre : list Event) (e : Event) :
  let r0 := startWithSpinner ex cmd a text o ch in
  completion (runWithSpinner r0 pre) = None ->
  let x := awaited (runWithSpinner r0 pre) in
  let r := runWithSpinner r0 (pre ++ [e]) in
  redraws x = []
  /\ redraws (awaited r) = []
  /\ (forall data isError now,
        effects (processOutput data isError now x) = effects x
        /\ this (processOutput data isError now x)
           = addLines (chunk_lines data) (this x))
  /\ (completion r <> None -> currentSpinner (this (awaited r)) = None).
Proof.
  intros r0 Hc x r.
  destruct (@awaiting_runs_plain r0 pre eq_refl Hc) as [Hx Hs].
  fold x in Hx.
  assert (Hsp : forall evs,
             is_some (currentSpinner (this (run (awaited r0) evs))) = true).
  { intros evs. rewrite (st_currentSpinner (run_static evs _)). reflexivity. }
  assert (Hgen : forall evs, redraws (run (awaited r0) evs) = []).
  { intros evs. rewrite run_redraws; reflexivity. }
  split; [rewrite Hx; apply Hgen|].
  assert (Hr : r = afterAwait
                     {| awaited := run (awaited r0) (pre ++ [e]);
                        spinnerText := spinnerText (runWithSpinner r0 pre);
                        spinnerCalls := spinnerCalls (runWithSpinner r0 pre);
                        completion := None |}).
  { unfold r. rewrite runWithSpinner_snoc. unfold dispatchWithSpinner.
    rewrite Hc. fold x. rewrite Hx, run_snoc. reflexivity. }
  match type of Hr with
  | _ = afterAwait ?q =>
      destruct (afterAwait_cases q eq_refl) as [[_ Hq]|(_ & Hq & Ha)]
  end.
  - rewrite Hq in Hr. split; [rewrite Hr; apply Hgen|].
    split.
    + intros data isError now. apply processOutput_under_spinner.
      rewrite Hx. apply Hsp.
    + intros Hne. rewrite Hr in Hne. simpl in Hne. congruence.
  - split; [rewrite Hr, Ha; apply (Hgen (pre ++ [e]))|].
    split.
    + intros data isError now. apply processOutput_under_spinner.
      rewrite Hx. apply Hsp.
    + intros _. rewrite Hr, Ha. reflexivity.
Qed.

(** A spinner-owned run: two chunks 500 ms apart, then the exit. *)
Lemma spinner_suppresses_live_display_witness :
  let r0 := startWithSpinner (new_StreamingExecutor None) "git" ["clone"]
              "Cloning" no_options piped in
  let pre := [StdoutData (line "Cloning into x") 1000;
              StderrData (line "done") 1500] in
  redraws (awaited (runWithSpinner r0 pre)) = []
  /\ redraws (awaited (runWithSpinner r0 (pre ++ [Exit (Some 0)]))) = [].
Proof.
  pose proof (@spinner_suppresses_live_display (new_StreamingExecutor None)
                "git" ["clone"] "Cloning" no_options piped
                [StdoutData (line "Cloning into x") 1000;
                 StderrData (line "done") 1500]
                (Exit (Some 0))) as H.
  cbv zeta in H. destruct H as (H1 & H2 & _).
  - vm_compute. reflexivity.
  - split; [exact H1|exact H2].
Defined.

(** After the promise has settled the spinner is gone: the call has
    reported success, [currentSpinner] is [null], and a chunk that arrives
    late is drawn. *)
Example late_chunk_is_drawn_after_the_spinner :
  let r := runWithSpinner
             (startWithSpinner (new_StreamingExecutor None) "git" ["clone"]
                "Cloning" no_options piped)
             [StdoutData (line "Cloning into x") 1000; Exit (Some 0);
              GraceTimerFires; StdoutData (line "late") 2000] in
  completion r = Some Returned
  /\ spinnerCalls r = [SpinnerStart "Cloning"; SpinnerSucceed "Cloning"]
  /\ currentSpinner (this (awaited r)) = None
  /\ List.length (redraws (awaited r)) = 3%nat.
Proof. vm_compute. repeat split; reflexivity. Qed.

(** The claim as worded fails: under a spinner the first chunk changes the
    buffer and nothing is drawn. *)
Lemma spinner_skips_display_updates : ~ spinner_redraws_on_every_change.
Proof.
  intros H.
  apply (H (with_currentSpinner (Some (Ora "Cloning"))
              (new_StreamingExecutor None))
           "git" ["clone"] no_options piped (Ora "Cloning") []
           (line "Cloning into x") 1000).
  - reflexivity.
  - reflexivity.
  - reflexivity.
  - vm_compute. discriminate.
  - vm_compute. reflexivity.
Qed.

(* ===================================================================== *)
(** ** The overall timeout *)
(* ===================================================================== *)

(** C8.  [execute] arms one timer of 30000 ms.  If the execution is still
    unresolved when that timer fires, its callback calls [child.kill()]
    first, then clears the display when [showOutput] is set, then rejects
    with the message [Command timed out after 30 seconds: ] followed by the
    command and its arguments joined by spaces, and that rejection is the
    only settlement.  If the execution is already resolved, the timer event
    changes nothing, and the callback's own guard makes it a no-op on any
    resolved state. *)
Theorem overall_timeout_kills_then_rejects
    (ex : StreamingExecutor) (cmd : string) (a : list string)
    (o : StreamingExecOptions) (ch : Child) (pre : list Event) :
  let x0 := execute ex cmd a o ch in
  let x := run x0 pre in
  let message :=
    "Command timed out after 30 seconds: " +++ cmd +++ " " +++ Js.join " " a in
  In (SetTimeout OverallTimeout 30000) (effects x0)
  /\ (resolved x = false ->
      effects (dispatch x OverallTimeoutFires)
      = effects x ++ [Kill]
        ++ (if showOutput x0 then clearDisplay_effects x else [])
        ++ [Reject (Error message)]
      /\ settlements (dispatch x OverallTimeoutFires)
         = [Reject (Error message)])
  /\ (resolved x = true -> dispatch x OverallTimeoutFires = x)
  /\ (forall y, resolved y = true -> onOverallTimeout y = y).
Proof.
  intros x0 x message.
  pose proof (run_consistent pre (execute_consistent ex cmd a o ch)) as Hx.
  pose proof (run_static pre x0) as Hst.
  fold x0 in Hx. fold x in Hx, Hst.
  split; [simpl; auto|].
  split; [|split].
  - intros Hr. destruct (c_unresolved Hx Hr) as [Hs Hp].
    assert (He : effects (dispatch x OverallTimeoutFires)
                 = effects x ++ [Kill]
                   ++ (if showOutput x0 then clearDisplay_effects x else [])
                   ++ [Reject (Error message)]).
    { simpl. rewrite Hp.
      rewrite onOverallTimeout_unresolved by exact Hr.
      simpl. rewrite (st_showOutput Hst), (st_command Hst), (st_args Hst).
      reflexivity. }
    split; [exact He|].
    assert (Hcd : forall b : bool,
               filter is_settle (if b then clearDisplay_effects x else [])
               = []).
    { intros [|]; [|reflexivity].
      unfold clearDisplay_effects. destruct (0 <? _)%nat; reflexivity. }
    unfold settlements in *. rewrite He, !filter_app, Hs, Hcd.
    reflexivity.
  - intros Hr. destruct (c_resolved Hx Hr) as [_ Hp].
    simpl. rewrite Hp. reflexivity.
  - apply onOverallTimeout_resolved.
Qed.

(** A command that is still running, with one line drawn, when the timer
    fires; and the same timer event after the command has completed. *)
Lemma overall_timeout_kills_then_rejects_witness :
  let x0 := execute (new_StreamingExecutor None) "pnpm" ["install"; "--prod"]
              no_options piped in
  let running := run x0 [StdoutData (line "resolving") 1000] in
  let finished := run x0 [Exit (Some 0); StdoutEnd; StderrEnd] in
  settlements (dispatch running OverallTimeoutFires)
  = [Reject (Error "Command timed out after 30 seconds: pnpm install --prod")]
  /\ dispatch finished OverallTimeoutFires = finished.
Proof.
  split.
  - refine (proj2 (proj1 (proj2
              (@overall_timeout_kills_then_rejects
                 (new_StreamingExecutor None) "pnpm" ["install"; "--prod"]
                 no_options piped [StdoutData (line "resolving") 1000])) _)).
    vm_compute. reflexivity.
  - refine (proj1 (proj2 (proj2
              (@overall_timeout_kills_then_rejects
                 (new_StreamingExecutor None) "pnpm" ["install"; "--prod"]
                 no_options piped [Exit (Some 0); StdoutEnd; StderrEnd]))) _).
    vm_compute. reflexivity.
Defined.

(* ===================================================================== *)
(** ** The grace timer *)
(* ===================================================================== *)

Section GraceTimer.


Lemma checkCompletion_settlements x :
  settlements (checkCompletion x) = settlements x
  \/ (processExited x = true /\ stdoutEnded x = true
      /\ stderrEnded x = true /\ resolved x = false
      /\ settlements (checkCompletion x)
         = settlements x
           ++ [outcome (exitCode x)
                 (if showOutput x then outputBuffer (this x) else [])]).
Proof.
  destruct (checkCompletion_cases x)
    as [[-> _]|(Hp & Ho & He & Hr & _ & _ & log & Hl & _ & Hs)];
    [left; reflexivity|].
  right. repeat split; try assumption.
  unfold settlements. rewrite Hl, filter_app, Hs. reflexivity.
Qed.













End GraceTimer.



(* ===================================================================== *)
(** ** The [maxLines] option *)
(* ===================================================================== *)

(** C10.  [execute] never reads [options.maxLines]: whatever value that
    field holds, or if it is absent, the execution starts in the same state
    and runs identically on every trace.  The capacity the buffer obeys is
    the executor's own [maxLines], set by the constructor (10 when the
    constructor is called without an argument) and never changed by any
    callback. *)
Theorem execute_ignores_maxLines_option
    (ex : StreamingExecutor) (cmd : string) (a : list string)
    (o : StreamingExecOptions) (ch : Child) (m : option Z)
    (evs : list Event) :
  execute ex cmd a (with_opt_maxLines m o) ch = execute ex cmd a o ch
  /\ run (execute ex cmd a (with_opt_maxLines m o) ch) evs
     = run (execute ex cmd a o ch) evs
  /\ maxLines (this (run (execute ex cmd a (with_opt_maxLines m o) ch) evs))
     = maxLines ex
  /\ maxLines (new_StreamingExecutor None) = 10
  /\ (forall text,
        maxLines
          (this (run (executeWithStreaming cmd a text (with_opt_maxLines m o)
                        ch) evs))
        = 10).
Proof.
  split; [reflexivity|]. split; [reflexivity|]. split; [|split].
  - rewrite (st_maxLines (run_static evs _)). reflexivity.
  - reflexivity.
  - intros text. rewrite (st_maxLines (run_static evs _)). reflexivity.
Qed.

(** Twelve lines sent to a default executor with [maxLines: 3] in the
    options: the buffer keeps the last ten. *)
Example maxLines_option_has_no_effect :
  let data :=
    Js.join Js.nl ["1"; "2"; "3"; "4"; "5"; "6"; "7"; "8"; "9"; "10"; "11";
                   "12"] in
  outputBuffer
    (this (run (execute (new_StreamingExecutor None) "seq" ["12"]
                  (with_opt_maxLines (Some 3) no_options) piped)
             [StdoutData data 1000]))
  = ["3"; "4"; "5"; "6"; "7"; "8"; "9"; "10"; "11"; "12"].
Proof. vm_compute. reflexivity. Qed.

(* ===================================================================== *)
(** ** The buffer as a window on the process output *)
(* ===================================================================== *)

Section Window.

(** A completion check either changes nothing or settles an unresolved
    execution. *)
Lemma checkCompletion_step x :
  checkCompletion x = x
  \/ (resolved x = false
      /\ exists s, settlements (checkCompletion x) = settlements x ++ [s]).
Proof.
  destruct (checkCompletion_cases x)
    as [[H _]|(_ & _ & _ & Hr & _ & _ & log & Hl & _ & Hs)];
    [left; exact H|].
  right. split; [exact Hr|]. eexists.
  unfold settlements. rewrite Hl, filter_app, Hs. reflexivity.
Qed.

(** One event either settles an unresolved execution, or settles nothing
    and adds the lines it delivers to the buffer. *)
Lemma dispatch_step x e :
  (settlements (dispatch x e) = settlements x
   /\ this (dispatch x e) = addLines (delivered_lines (child x) e) (this x))
  \/ (resolved x = false
      /\ exists s, settlements (dispatch x e) = settlements x ++ [s]).
Proof.
  destruct e; simpl.
  - left. destruct (has_stdout (child x)); [|auto].
    split; [apply processOutput_settlements|apply processOutput_frame].
  - left. destruct (has_stderr (child x)); [|auto].
    split; [apply processOutput_settlements|apply processOutput_frame].
  - destruct (has_stdout (child x)); [|auto].
    unfold onStdoutEnd.
    destruct (checkCompletion_step (with_stdoutEnded true x))
      as [->|[Hr Hs]]; [left; auto|right; auto].
  - destruct (has_stderr (child x)); [|auto].
    unfold onStderrEnd.
    destruct (checkCompletion_step (with_stderrEnded true x))
      as [->|[Hr Hs]]; [left; auto|right; auto].
  - unfold onExit.
    match goal with
    | |- context [checkCompletion ?z] =>
        assert (Hz : settlements z = settlements x)
          by (unfold settlements; simpl; rewrite filter_app; simpl;
              apply app_nil_r);
        destruct (checkCompletion_step z) as [->|[Hr [s Hs]]]
    end.
    + left. auto.
    + right. split; [exact Hr|]. exists s. rewrite Hs, Hz. reflexivity.
  - destruct (gracePending x) as [|k]; [auto|].
    unfold onGraceTimer. simpl.
    destruct (resolved x) eqn:Hres; simpl; [left; auto|].
    destruct (checkCompletion_step
                (with_stderrEnded true
                   (with_stdoutEnded true (with_gracePending k x))))
      as [->|[Hr Hs]]; [left; auto|right; auto].
  - destruct (overallPending x); [|auto].
    destruct (resolved x) eqn:Hres.
    + left. rewrite onOverallTimeout_resolved by exact Hres. auto.
    + right. split; [reflexivity|]. eexists.
      unfold settlements.
      rewrite onOverallTimeout_unresolved by exact Hres.
      simpl. rewrite !filter_app. simpl.
      destruct (showOutput x); unfold clearDisplay_effects;
        [destruct (0 <? _)%nat|]; simpl; rewrite ?app_nil_r; reflexivity.
  - destruct (resolved x) eqn:Hres.
    + left. unfold onError. rewrite Hres. auto.
    + right. split; [reflexivity|]. eexists.
      unfold settlements.
      rewrite onError_unresolved by exact Hres.
      rewrite !filter_app. simpl.
      destruct (showOutput x); unfold clearDisplay_effects;
        [destruct (0 <? _)%nat|]; simpl; rewrite ?app_nil_r; reflexivity.
Qed.

(** Settlements are never taken back. *)
Lemma pending_prefix x evs e :
  settlements (run x (evs ++ [e])) = [] -> settlements (run x evs) = [].
Proof.
  rewrite run_snoc.
  destruct (dispatch_step (run x evs) e) as [[-> _]|[_ [s ->]]]; [auto|].
  intros H. apply app_eq_nil in H. tauto.
Qed.



End Window.



(* ===================================================================== *)
(** ** The shape of buffered lines *)
(* ===================================================================== *)

Section Lines.

Lemma split_chars_pieces sep s : forall cur,
  ~ In sep cur ->
  Forall (fun piece => ~ In sep piece) (Js.split_chars sep cur s).
Proof.
  induction s as [|c s IH]; intros cur Hcur; simpl.
  - constructor; [|constructor]. rewrite <- in_rev. exact Hcur.
  - destruct (Ascii.eqb_spec c sep) as [->|Hne].
    + constructor; [rewrite <- in_rev; exact Hcur|].
      apply IH. simpl. tauto.
    + apply IH. simpl. intros [H|H]; [congruence|tauto].
Qed.

Lemma drop_prefix_suffix p : forall s r,
  Js.drop_prefix p s = Some r -> s = p ++ r.
Proof.
  induction p as [|a p IH]; intros s r H; simpl in *.
  - congruence.
  - destruct s as [|b s]; [discriminate|].
    destruct (Ascii.eqb_spec a b) as [->|]; [|discriminate].
    rewrite (IH _ _ H). reflexivity.
Qed.

Lemma drop_one_suffix pats : forall s r,
  Js.drop_one pats s = Some r -> exists p, s = p ++ r.
Proof.
  induction pats as [|p pats IH]; intros s r H; simpl in *; [discriminate|].
  destruct (Js.drop_prefix p s) as [r'|] eqn:Hp.
  - injection H as <-. exists p. apply drop_prefix_suffix. exact Hp.
  - apply IH. exact H.
Qed.

Lemma drop_all_suffix pats fuel : forall s,
  exists p, s = p ++ Js.drop_all fuel pats s.
Proof.
  induction fuel as [|k IH]; intros s; simpl.
  - exists []. reflexivity.
  - destruct (Js.drop_one pats s) as [r|] eqn:Hr.
    + destruct (drop_one_suffix _ _ Hr) as [p ->].
      destruct (IH r) as [q Hq]. exists (p ++ q).
      rewrite <- app_assoc, <- Hq. reflexivity.
    + exists []. reflexivity.
Qed.

(** Trimming only removes characters. *)
Lemma trim_chars_incl s c : In c (Js.trim_chars s) -> In c s.
Proof.
  unfold Js.trim_chars. cbv zeta.
  set (fwd := map (map Js.chr) Js.whitespace).
  set (bwd := map (fun p => rev (map Js.chr p)) Js.whitespace).
  intros H. apply in_rev in H.
  destruct (drop_all_suffix fwd (List.length s) s) as [p Hp].
  set (s1 := Js.drop_all (List.length s) fwd s) in *.
  destruct (drop_all_suffix bwd (List.length s1) (rev s1)) as [q Hq].
  rewrite Hp. apply in_or_app. right.
  apply in_rev. rewrite Hq. apply in_or_app. right. exact H.
Qed.

Lemma truthy_nonempty s : Js.truthy s = true -> s <> EmptyString.
Proof. destruct s; [discriminate|]. intros _ H. discriminate. Qed.

(** Every line [processOutput] takes from a chunk is non-empty and free of
    line feeds. *)
Lemma chunk_lines_shape data : Forall buffered_line (chunk_lines data).
Proof.
  unfold chunk_lines, Js.split.
  apply Forall_forall. intros l Hl.
  apply in_map_iff in Hl. destruct Hl as (raw & <- & Hraw).
  apply filter_In in Hraw. destruct Hraw as [Hraw Htruthy].
  apply in_map_iff in Hraw. destruct Hraw as (piece & <- & Hpiece).
  split; [apply truthy_nonempty; exact Htruthy|].
  unfold newline_free, Js.trim.
  rewrite !list_ascii_of_string_of_list_ascii.
  intros Hin. apply trim_chars_incl in Hin.
  pose proof (split_chars_pieces (Js.chr 10) (list_ascii_of_string data) [])
    as Hall.
  rewrite Forall_forall in Hall. apply (Hall (fun H => H) piece Hpiece Hin).
Qed.

Lemma addToBuffer_Forall (P : string -> Prop) l ex :
  P l -> Forall P (outputBuffer ex) ->
  Forall P (outputBuffer (addToBuffer l ex)).
Proof.
  intros Hl Hb. rewrite addToBuffer_outputBuffer.
  assert (Hall : Forall P (outputBuffer ex ++ [l]))
    by (apply Forall_app; auto).
  destruct (_ >? _); [|exact Hall].
  destruct (outputBuffer ex ++ [l]); [constructor|].
  inversion Hall. assumption.
Qed.

Lemma addLines_Forall (P : string -> Prop) ls : forall ex,
  Forall P ls -> Forall P (outputBuffer ex) ->
  Forall P (outputBuffer (addLines ls ex)).
Proof.
  induction ls as [|l ls IH]; intros ex Hls Hb; simpl; [exact Hb|].
  inversion Hls; subst. apply IH; [assumption|].
  apply addToBuffer_Forall; assumption.
Qed.

Lemma run_buffer_shape evs : forall x,
  Forall buffered_line (outputBuffer (this x)) ->
  Forall buffered_line (outputBuffer (this (run x evs))).
Proof.
  induction evs as [|e evs IH]; intros x Hx; simpl; [exact Hx|].
  apply IH.
  destruct (dispatch_buffer x e) as [->|[->|[data ->]]].
  - exact Hx.
  - constructor.
  - apply addLines_Forall; [apply chunk_lines_shape|exact Hx].
Qed.

Lemma list_ascii_of_string_app s t :
  list_ascii_of_string (s +++ t)
  = list_ascii_of_string s ++ list_ascii_of_string t.
Proof.
  induction s as [|c s IH]; [reflexivity|].
  change (String c s +++ t) with (String c (s +++ t)).
  simpl. rewrite IH. reflexivity.
Qed.

Lemma split_chars_no_sep sep s : forall cur,
  ~ In sep s -> Js.split_chars sep cur s = [rev cur ++ s].
Proof.
  induction s as [|c s IH]; intros cur Hs; simpl.
  - rewrite app_nil_r. reflexivity.
  - destruct (Ascii.eqb_spec c sep) as [->|Hne];
      [exfalso; apply Hs; simpl; auto|].
    rewrite IH by (simpl in Hs; tauto).
    simpl. rewrite <- app_assoc. reflexivity.
Qed.

Lemma split_chars_at_sep sep s1 s2 : forall cur,
  ~ In sep s1 ->
  Js.split_chars sep cur (s1 ++ sep :: s2)
  = (rev cur ++ s1) :: Js.split_chars sep [] s2.
Proof.
  induction s1 as [|c s1 IH]; intros cur Hs; simpl.
  - rewrite Ascii.eqb_refl, app_nil_r. reflexivity.
  - destruct (Ascii.eqb_spec c sep) as [->|Hne];
      [exfalso; apply Hs; simpl; auto|].
    rewrite IH by (simpl in Hs; tauto).
    simpl. rewrite <- app_assoc. reflexivity.
Qed.

(** Joining lines that hold no line feed and splitting again gives the
    lines back. *)
Lemma split_join_lines ls :
  ls <> [] -> Forall newline_free ls ->
  Js.split (Js.chr 10) (Js.join Js.nl ls) = ls.
Proof.
  unfold Js.split.
  induction ls as [|l ls IH]; intros Hne Hall; [congruence|].
  inversion Hall as [|? ? Hl Hls]; subst.
  destruct ls as [|l' ls].
  - simpl. rewrite split_chars_no_sep by exact Hl. simpl.
    rewrite string_of_list_ascii_of_string. reflexivity.
  - change (Js.join Js.nl (l :: l' :: ls))
      with (l +++ Js.nl +++ Js.join Js.nl (l' :: ls)).
    rewrite !list_ascii_of_string_app.
    change (list_ascii_of_string Js.nl) with [Js.chr 10].
    simpl app at 2.
    rewrite split_chars_at_sep by exact Hl.
    simpl map. rewrite string_of_list_ascii_of_string.
    f_equal. apply IH; [discriminate|exact Hls].
Qed.

End Lines.

(** X2.  Whatever the process writes and whatever events arrive, every line
    in the buffer is non-empty and contains no line feed: chunks are split
    at line feeds, blank pieces are dropped and the rest is trimmed. *)
Theorem buffer_lines_nonblank_single_line
    (ex : StreamingExecutor) (cmd : string) (a : list string)
    (o : StreamingExecOptions) (ch : Child) (evs : list Event) :
  Forall buffered_line
    (outputBuffer (this (run (execute ex cmd a o ch) evs))).
Proof. apply run_buffer_shape. constructor. Qed.

(** X3.  When a failure message is built from a non-empty buffer, it is the
    exit-code sentence, a line feed, and a body that splits at line feeds
    into exactly the buffered lines, in order: no line is lost, merged or
    cut in two. *)
Theorem failure_message_splits_into_buffer
    (ex : StreamingExecutor) (cmd : string) (a : list string)
    (o : StreamingExecOptions) (ch : Child) (evs : list Event) (code : Z) :
  let buffer := outputBuffer (this (run (execute ex cmd a o ch) evs)) in
  buffer <> [] ->
  exists body,
    failureMessage code buffer
    = "Command failed with exit code " +++ Js.num code +++ Js.nl +++ body
    /\ Js.split (Js.chr 10) body = buffer.
Proof.
  intros buffer Hne. exists (Js.join Js.nl buffer). split.
  - unfold failureMessage. destruct buffer; [congruence|reflexivity].
  - apply split_join_lines; [exact Hne|].
    assert (H : Forall buffered_line buffer)
      by (apply run_buffer_shape; constructor).
    apply (Forall_impl _ (fun l (Hl : buffered_line l) => proj2 Hl) H).
Qed.

(** A failing build whose last two lines are kept. *)
Lemma failure_message_splits_into_buffer_witness :
  exists body,
    failureMessage 2 ["src/a.ts: error"; "1 error"]
    = "Command failed with exit code " +++ Js.num 2 +++ Js.nl +++ body
    /\ Js.split (Js.chr 10) body = ["src/a.ts: error"; "1 error"].
Proof.
  refine (@failure_message_splits_into_buffer
            (new_StreamingExecutor (Some 2)) "tsc" [] no_options piped
            [StdoutData (line "checking" +++ line "src/a.ts: error") 1000;
             StderrData (line "1 error") 1001]
            2 _).
  vm_compute. discriminate.
Defined.

(* ===================================================================== *)
(** ** The redraw throttle *)
(* ===================================================================== *)

Section Throttle.

Lemma updateDisplay_effects_echo cmd x :
  List.length (filter is_echo (updateDisplay_effects cmd x)) = 1%nat.
Proof.
  unfold updateDisplay_effects.
  rewrite !filter_app, !length_app.
  assert (Hgray : forall ls,
             filter is_echo (map (fun l => ConsoleLog Gray ("  " +++ l)) ls)
             = []).
  { induction ls as [|l ls IH]; simpl; auto. }
  rewrite Hgray.
  destruct (is_some _); destruct (0 <? _)%nat; reflexivity.
Qed.

(** A chunk either draws nothing and leaves the throttle clock alone, or it
    arrives at least 100 ms after the last redraw, redraws once and sets
    the clock to its own time. *)
Lemma processOutput_throttle data isError now x :
  let y := processOutput data isError now x in
  (effects y = effects x /\ lastDisplayUpdate y = lastDisplayUpdate x)
  \/ (now - lastDisplayUpdate x >= DISPLAY_THROTTLE_MS
      /\ lastDisplayUpdate y = now
      /\ redraw_count y = S (redraw_count x)).
Proof.
  unfold processOutput.
  match goal with
  | |- context [fold_left ?g ?ls ?z] =>
      destruct (buffer_lines_frame ls z) as (_ & _ & _ & Hl & He);
      set (x1 := fold_left g ls z) in *
  end.
  cbv zeta in *.
  destruct (showOutput x1 && hasOutput x1
            && negb (is_some (currentSpinner (this x1)))); [|left; auto].
  destruct (Z.geb_spec (now - lastDisplayUpdate x1) DISPLAY_THROTTLE_MS)
    as [Hge|Hlt]; [|left; auto].
  right. rewrite <- Hl. split; [lia|]. split; [reflexivity|].
  destruct (updateDisplay_frame (command_line (command x1) (args x1)) x1)
    as (_ & _ & _ & _ & Hu).
  cbv zeta in Hu. unfold redraw_count. simpl. rewrite Hu, He.
  rewrite filter_app, length_app, updateDisplay_effects_echo. lia.
Qed.

Lemma checkCompletion_display x :
  lastDisplayUpdate (checkCompletion x) = lastDisplayUpdate x
  /\ redraw_count (checkCompletion x) = redraw_count x.
Proof.
  unfold checkCompletion, clearOverallTimeout, clearDisplay, erase_region,
    redraw_count.
  destruct x as [t c a so ch ho r ld oe ee pe ec op gp ef]. simpl.
  destruct (pe && oe && ee && negb r); [|auto].
  destruct so; simpl;
    [|destruct (0 <? List.length (outputBuffer t))%nat; simpl];
    destruct ec as [[|p|p]|]; simpl;
    rewrite ?filter_app; simpl; rewrite ?app_nil_r; auto.
Qed.

Lemma onOverallTimeout_display x :
  lastDisplayUpdate (onOverallTimeout x) = lastDisplayUpdate x
  /\ redraw_count (onOverallTimeout x) = redraw_count x.
Proof.
  unfold onOverallTimeout, clearDisplay, erase_region, redraw_count.
  destruct x as [t c a so ch ho r ld oe ee pe ec op gp ef]. simpl.
  destruct r; simpl; [auto|].
  destruct so; simpl;
    [destruct (0 <? List.length (outputBuffer t))%nat; simpl|];
    rewrite ?filter_app; simpl; rewrite ?app_nil_r; auto.
Qed.

Lemma onError_display err x :
  lastDisplayUpdate (onError err x) = lastDisplayUpdate x
  /\ redraw_count (onError err x) = redraw_count x.
Proof.
  unfold onError, clearOverallTimeout, clearDisplay, erase_region,
    redraw_count.
  destruct x as [t c a so ch ho r ld oe ee pe ec op gp ef]. simpl.
  destruct r; simpl; [auto|].
  destruct so; simpl;
    [destruct (0 <? List.length (outputBuffer t))%nat; simpl|];
    rewrite ?filter_app; simpl; rewrite ?app_nil_r; auto.
Qed.

(** Only chunks of output move the throttle clock or redraw, and then only
    as [processOutput_throttle] says. *)
Lemma dispatch_throttle x e :
  (lastDisplayUpdate (dispatch x e) = lastDisplayUpdate x
   /\ redraw_count (dispatch x e) = redraw_count x)
  \/ (exists data now,
        (e = StdoutData data now \/ e = StderrData data now)
        /\ now - lastDisplayUpdate x >= DISPLAY_THROTTLE_MS
        /\ lastDisplayUpdate (dispatch x e) = now
        /\ redraw_count (dispatch x e) = S (redraw_count x)).
Proof.
  destruct e; simpl.
  - destruct (has_stdout (child x)); [|auto].
    destruct (processOutput_throttle data false now x) as [[He Hl]|H].
    + left. unfold redraw_count. rewrite He. auto.
    + right. exists data, now. tauto.
  - destruct (has_stderr (child x)); [|auto].
    destruct (processOutput_throttle data true now x) as [[He Hl]|H].
    + left. unfold redraw_count. rewrite He. auto.
    + right. exists data, now. tauto.
  - left. destruct (has_stdout (child x)); [|auto].
    apply (checkCompletion_display (with_stdoutEnded true x)).
  - left. destruct (has_stderr (child x)); [|auto].
    apply (checkCompletion_display (with_stderrEnded true x)).
  - left. unfold onExit.
    match goal with
    | |- context [checkCompletion ?z] =>
        destruct (checkCompletion_display z) as [-> ->]
    end.
    unfold redraw_count. simpl. rewrite filter_app. simpl.
    rewrite app_nil_r. auto.
  - left. destruct (gracePending x) as [|k]; [auto|].
    unfold onGraceTimer. simpl. destruct (resolved x); simpl; [auto|].
    apply (checkCompletion_display
             (with_stderrEnded true
                (with_stdoutEnded true (with_gracePending k x)))).
  - left. destruct (overallPending x); [|auto].
    apply (onOverallTimeout_display (with_overallPending false x)).
  - left. apply onError_display.
Qed.

Lemma burst_invariant start evs : forall x,
  Forall (in_window start) evs ->
  (redraw_count x = 0%nat
   \/ (redraw_count x = 1%nat /\ start <= lastDisplayUpdate x)) ->
  (redraw_count (run x evs) <= 1)%nat.
Proof.
  induction evs as [|e evs IH]; intros x Hw Hx; simpl.
  - destruct Hx as [->|[-> _]]; lia.
  - inversion Hw as [|? ? He Hevs]; subst. apply IH; [exact Hevs|].
    destruct (dispatch_throttle x e)
      as [[Hl Hc]|(data & now & Hev & Hge & Hl & Hc)].
    + rewrite Hl, Hc. exact Hx.
    + assert (Hnow : start <= now < start + DISPLAY_THROTTLE_MS)
        by (destruct Hev as [-> | ->]; exact He).
      destruct Hx as [H0|[H1 Hlast]].
      * right. rewrite Hc, H0, Hl. split; [reflexivity|lia].
      * lia.
Qed.

End Throttle.

(** X4.  However many chunks of output arrive, on either stream and mixed
    with any other events, if all of them arrive within one window of less
    than 100 ms then the display is redrawn at most once during the whole
    execution. *)
Theorem burst_redraws_at_most_once
    (ex : StreamingExecutor) (cmd : string) (a : list string)
    (o : StreamingExecOptions) (ch : Child) (evs : list Event) (start : Z) :
  Forall (in_window start) evs ->
  (redraw_count (run (execute ex cmd a o ch) evs) <= 1)%nat.
Proof.
  intros Hw. apply (@burst_invariant start evs _ Hw). left. reflexivity.
Qed.

(** Three chunks within 10 ms: one redraw, three lines buffered. *)
Lemma burst_redraws_at_most_once_witness :
  let x := run (execute (new_StreamingExecutor None) "yes" [] no_options piped)
               [StdoutData (line "y") 5000; StdoutData (line "y") 5004;
                StderrData (line "n") 5009] in
  (redraw_count x <= 1)%nat.
Proof.
  apply (@burst_redraws_at_most_once (new_StreamingExecutor None) "yes" []
           no_options piped _ 5000).
  repeat constructor; unfold DISPLAY_THROTTLE_MS; lia.
Defined.

(* ===================================================================== *)
(** ** A spawn error *)
(* ===================================================================== *)

Section SpawnFailure.

Lemma onError_this err x :
  resolved x = false ->
  this (onError err x)
  = (if showOutput x then with_outputBuffer [] (this x) else this x)
  /\ resolved (onError err x) = true
  /\ overallPending (onError err x) = false.
Proof.
  unfold onError, clearOverallTimeout, clearDisplay, erase_region.
  destruct x as [t c a so ch ho r ld oe ee pe ec op gp ef]. simpl.
  intros ->. simpl.
  destruct so; simpl;
    [destruct (0 <? List.length (outputBuffer t))%nat|]; auto.
Qed.

(** Once resolved, nothing that happens later settles again. *)
Lemma resolved_settlements_final evs : forall x,
  resolved x = true -> settlements (run x evs) = settlements x.
Proof.
  induction evs as [|e evs IH]; intros x Hr; simpl; [reflexivity|].
  rewrite IH by (apply dispatch_monotone; exact Hr).
  destruct (dispatch_step x e) as [[Hs _]|[Hr' _]]; [exact Hs|congruence].
Qed.

End SpawnFailure.

(** X5.  A spawn error on a pending execution rejects at once with that
    very error, whatever the state of the exit and stream flags: the
    callback cancels the overall timeout, clears the display when
    [showOutput] is set (emptying the buffer), and calls [reject(error)].
    That rejection is final: no later event, the exit and stream-end events
    included, settles again.  On a resolved execution the error event is
    ignored. *)
Theorem spawn_error_rejects_at_once
    (ex : StreamingExecutor) (cmd : string) (a : list string)
    (o : StreamingExecOptions) (ch : Child) (pre : list Event)
    (err : JsError) :
  let x0 := execute ex cmd a o ch in
  let x := run x0 pre in
  let y := dispatch x (SpawnError err) in
  (resolved x = false ->
   effects y
   = effects x ++ [ClearTimeout OverallTimeout]
     ++ (if showOutput x0 then clearDisplay_effects x else [])
     ++ [Reject err]
   /\ outputBuffer (this y)
      = (if showOutput x0 then [] else outputBuffer (this x))
   /\ forall later, settlements (run y later) = [Reject err])
  /\ (resolved x = true -> y = x).
Proof.
  intros x0 x y.
  pose proof (run_consistent pre (execute_consistent ex cmd a o ch)) as Hx.
  pose proof (st_showOutput (run_static pre x0)) as Hso.
  fold x0 in Hx. fold x in Hx, Hso.
  remember (showOutput x0) as so eqn:Eso. clear Eso.
  split.
  - intros Hr. destruct (c_unresolved Hx Hr) as [Hs _].
    destruct (onError_this err x Hr) as (Ht & Hres & _).
    assert (He : effects y
                 = effects x ++ [ClearTimeout OverallTimeout]
                   ++ (if so then clearDisplay_effects x else [])
                   ++ [Reject err]).
    { unfold y. simpl. rewrite onError_unresolved by exact Hr.
      rewrite Hso. reflexivity. }
    split; [exact He|]. split.
    + unfold y. simpl. rewrite Ht, Hso. destruct so; reflexivity.
    + intros later.
      rewrite resolved_settlements_final by exact Hres.
      unfold settlements in *. rewrite He, !filter_app, Hs. simpl.
      destruct so; [|reflexivity].
      unfold clearDisplay_effects. destruct (0 <? _)%nat; reflexivity.
  - intros Hr. unfold y. simpl. unfold onError. rewrite Hr. reflexivity.
Qed.

(** [ENOENT] for a missing binary, followed by a late exit event. *)
Lemma spawn_error_rejects_at_once_witness :
  let x0 := execute (new_StreamingExecutor None) "gti" ["status"] no_options
              piped in
  settlements
    (run (dispatch (run x0 []) (SpawnError (Error "spawn gti ENOENT")))
       [Exit (Some (-2)); StdoutEnd; StderrEnd; GraceTimerFires])
  = [Reject (Error "spawn gti ENOENT")].
Proof.
  intros x0.
  pose proof (@spawn_error_rejects_at_once (new_StreamingExecutor None) "gti"
                ["status"] no_options piped [] (Error "spawn gti ENOENT"))
    as H.
  cbv zeta in H. destruct H as [H _].
  destruct (H eq_refl) as (_ & _ & Hfinal).
  exact (Hfinal [Exit (Some (-2)); StdoutEnd; StderrEnd; GraceTimerFires]).
Defined.

(* ===================================================================== *)
(** ** How an [executeWithSpinner] call ends *)
(* ===================================================================== *)

Section SpinnerOutcome.

(** While the call is awaiting, nothing but the awaited execution has
    changed. *)
Lemma awaiting_state r0 evs :
  settlements (awaited r0) = [] ->
  completion r0 = None ->
  completion (runWithSpinner r0 evs) = None ->
  runWithSpinner r0 evs
  = {| awaited := run (awaited r0) evs;
       spinnerText := spinnerText r0;
       spinnerCalls := spinnerCalls r0;
       completion := None |}.
Proof.
  intros H0 Hc0. induction evs as [|e evs IH] using rev_ind; intros Hc.
  - simpl. destruct r0; simpl in *. subst. reflexivity.
  - rewrite runWithSpinner_snoc in *.
    unfold dispatchWithSpinner in *.
    destruct (completion (runWithSpinner r0 evs)) eqn:Hr.
    + rewrite afterAwait_completed in Hc by (simpl; congruence).
      simpl in Hc. congruence.
    + rewrite (IH eq_refl) in *. simpl in *.
      match goal with
      | |- afterAwait ?q = _ =>
          destruct (afterAwait_cases q eq_refl) as [[_ Hq]|(_ & Hq & _)]
      end.
      * rewrite Hq, run_snoc. reflexivity.
      * congruence.
Qed.

(** As long as the execution is pending, the call is awaiting. *)
Lemma pending_is_awaiting r0 evs :
  settlements (awaited r0) = [] ->
  completion r0 = None ->
  settlements (run (awaited r0) evs) = [] ->
  completion (runWithSpinner r0 evs) = None.
Proof.
  intros H0 Hc0. induction evs as [|e evs IH] using rev_ind; intros Hp.
  - exact Hc0.
  - specialize (IH (pending_prefix _ _ _ Hp)).
    rewrite runWithSpinner_snoc.
    rewrite (awaiting_state r0 evs H0 Hc0 IH).
    unfold dispatchWithSpinner, afterAwait.
    cbn [awaited spinnerText spinnerCalls completion].
    rewrite <- run_snoc, Hp. reflexivity.
Qed.

(** After the call has ended, later events leave its outcome, its spinner
    calls and the reset [currentSpinner] alone. *)
Lemma completed_is_final later : forall r,
  completion r <> None ->
  currentSpinner (this (awaited r)) = None ->
  completion (runWithSpinner r later) = completion r
  /\ spinnerCalls (runWithSpinner r later) = spinnerCalls r
  /\ currentSpinner (this (awaited (runWithSpinner r later))) = None.
Proof.
  induction later as [|e later IH]; intros r Hc Hs; simpl;
    [repeat split; assumption|].
  assert (Hd : dispatchWithSpinner r e
               = {| awaited := dispatch (awaited r) e;
                    spinnerText := spinnerText r;
                    spinnerCalls := spinnerCalls r;
                    completion := completion r |}).
  { unfold dispatchWithSpinner. apply afterAwait_completed. exact Hc. }
  destruct (IH (dispatchWithSpinner r e)) as (H1 & H2 & H3).
  - rewrite Hd. exact Hc.
  - rewrite Hd. simpl.
    rewrite (st_currentSpinner (dispatch_static (awaited r) e)). exact Hs.
  - change (fold_left dispatchWithSpinner later (dispatchWithSpinner r e))
      with (runWithSpinner (dispatchWithSpinner r e) later).
    split; [rewrite H1, Hd; reflexivity|].
    split; [rewrite H2, Hd; reflexivity|exact H3].
Qed.

End SpinnerOutcome.

(** X6.  An [executeWithSpinner] call ends exactly when its execution
    settles, and mirrors how it settled: on [resolve] the spinner succeeds
    with the given text and the call returns; on [reject] the spinner fails
    with the text followed by [ - Failed] and the call throws the very
    error the execution was rejected with.  The continuation runs once:
    whatever events arrive later, the outcome and the spinner calls stay as
    they are and [currentSpinner] stays [null]. *)
Theorem executeWithSpinner_mirrors_settlement
    (ex : StreamingExecutor) (cmd : string) (a : list string) (text : string)
    (o : StreamingExecOptions) (ch : Child) (pre : list Event) (e : Event) :
  let r0 := startWithSpinner ex cmd a text o ch in
  completion (runWithSpinner r0 pre) = None ->
  let x := run (awaited r0) (pre ++ [e]) in
  let r := runWithSpinner r0 (pre ++ [e]) in
  (settlements x = [] ->
   completion r = None /\ spinnerCalls r = [SpinnerStart text])
  /\ (settlements x = [Resolve] ->
      completion r = Some Returned
      /\ spinnerCalls r = [SpinnerStart text; SpinnerSucceed text])
  /\ (forall err,
        settlements x = [Reject err] ->
        completion r = Some (Threw err)
        /\ spinnerCalls r
           = [SpinnerStart text; SpinnerFail (text +++ " - Failed")])
  /\ (completion r <> None ->
      forall later,
        completion (runWithSpinner r later) = completion r
        /\ spinnerCalls (runWithSpinner r later) = spinnerCalls r
        /\ currentSpinner (this (awaited (runWithSpinner r later))) = None).
Proof.
  intros r0 Hc x r.
  assert (Hr : r = afterAwait
                     {| awaited := x; spinnerText := text;
                        spinnerCalls := [SpinnerStart text];
                        completion := None |}).
  { unfold r. rewrite runWithSpinner_snoc.
    rewrite (@awaiting_state r0 pre eq_refl eq_refl Hc).
    unfold dispatchWithSpinner. simpl. unfold x. rewrite run_snoc.
    reflexivity. }
  split; [|split; [|split]].
  - intros Hs. rewrite Hr. unfold afterAwait. simpl. rewrite Hs. auto.
  - intros Hs. rewrite Hr. unfold afterAwait. simpl. rewrite Hs. auto.
  - intros err Hs. rewrite Hr. unfold afterAwait. simpl. rewrite Hs. auto.
  - intros Hne later. apply completed_is_final; [exact Hne|].
    match type of Hr with
    | _ = afterAwait ?q =>
        destruct (afterAwait_cases q eq_refl) as [[_ Hq]|(_ & _ & Ha)]
    end.
    + rewrite Hr, Hq in Hne. simpl in Hne. congruence.
    + rewrite Hr, Ha. reflexivity.
Qed.

(** A clone that fails with exit code 128, then a late stream end. *)
Lemma executeWithSpinner_mirrors_settlement_witness :
  let r := runWithSpinner
             (startWithSpinner (new_StreamingExecutor None) "git" ["clone"]
                "Cloning repository..." no_options piped)
             ([StderrData (line "fatal: not found") 1000; StdoutEnd; StderrEnd]
              ++ [Exit (Some 128)]) in
  completion r
  = Some (Threw (Error ("Command failed with exit code 128" +++ Js.nl
                        +++ "fatal: not found")))
  /\ spinnerCalls r
     = [SpinnerStart "Cloning repository...";
        SpinnerFail "Cloning repository... - Failed"].
Proof.
  pose proof (@executeWithSpinner_mirrors_settlement
                (new_StreamingExecutor None) "git" ["clone"]
                "Cloning repository..." no_options piped
                [StderrData (line "fatal: not found") 1000; StdoutEnd;
                 StderrEnd]
                (Exit (Some 128))) as H.
  cbv zeta in H. destruct H as (_ & _ & H & _).
  - vm_compute. reflexivity.
  - apply H. vm_compute. reflexivity.
Defined.

(** X7.  [executeWithSpinner] overrides [options.showOutput] with [true],
    so the loss of output that [showOutput: false] causes in [execute]
    cannot happen through it (nor through [executeWithStreaming]): when the
    process exits with a non-zero code and the completion check completes
    the execution, the call throws the failure message built from the exit
    code and every line the buffer held, whatever the options said. *)
Theorem executeWithSpinner_failure_carries_output
    (ex : StreamingExecutor) (cmd : string) (a : list string) (text : string)
    (o : StreamingExecOptions) (ch : Child) (pre : list Event) (e : Event)
    (code : Z) :
  let r0 := startWithSpinner ex cmd a text o ch in
  ends_execution (awaited r0) pre e ->
  e <> OverallTimeoutFires ->
  (forall err, e <> SpawnError err) ->
  exitCode (run (awaited r0) (pre ++ [e])) = Some code ->
  code <> 0 ->
  completion (runWithSpinner r0 pre) = None
  /\ completion (runWithSpinner r0 (pre ++ [e]))
     = Some (Threw (Error (failureMessage code
                             (outputBuffer (this (run (awaited r0) pre)))))).
Proof.
  intros r0 Hend Ht He Hcode Hnz.
  assert (Hc : completion (runWithSpinner r0 pre) = None)
    by (apply pending_is_awaiting; [reflexivity..|apply Hend]).
  split; [exact Hc|].
  rewrite runWithSpinner_snoc.
  rewrite (@awaiting_state r0 pre eq_refl eq_refl Hc).
  unfold dispatchWithSpinner, afterAwait.
  cbn [awaited spinnerText spinnerCalls completion].
  rewrite <- run_snoc.
  destruct (@failure_message_carries_buffer_when_shown
              (with_currentSpinner (Some (Ora text)) ex) cmd a
              {| opt_cwd := opt_cwd o; opt_maxLines := opt_maxLines o;
                 opt_showOutput := Some true |}
              ch pre e code eq_refl Hend Ht He Hcode Hnz) as [Hs _].
  change (execute (with_currentSpinner (Some (Ora text)) ex) cmd a
            {| opt_cwd := opt_cwd o; opt_maxLines := opt_maxLines o;
               opt_showOutput := Some true |} ch)
    with (awaited r0) in Hs.
  rewrite Hs. reflexivity.
Qed.

(** [showOutput: false] passed to [executeWithSpinner]: the output is in the
    error all the same. *)
Lemma executeWithSpinner_failure_carries_output_witness :
  completion
    (runWithSpinner
       (startWithSpinner (new_StreamingExecutor None) "make" ["test"] "Testing"
          quiet piped)
       ([StderrData (line "boom") 0; Exit (Some 2); StdoutEnd] ++ [StderrEnd]))
  = Some (Threw (Error ("Command failed with exit code 2" +++ Js.nl
                        +++ "boom"))).
Proof.
  refine (proj2 (@executeWithSpinner_failure_carries_output
                   (new_StreamingExecutor None) "make" ["test"] "Testing"
                   quiet piped
                   [StderrData (line "boom") 0; Exit (Some 2); StdoutEnd]
                   StderrEnd 2 _ _ _ _ _)).
  - split; vm_compute; [reflexivity|discriminate].
  - discriminate.
  - discriminate.
  - vm_compute. reflexivity.
  - discriminate.
Defined.

